(** * lockfree::atomic_bitset (src/atomic-bitset.h): a sequential model

    The bit-set is a fixed array [elements] of [Capacity] atomic pointers,
    each null or pointing to a heap-allocated [BitSetElement] that carries
    the bucket id it was built for ([cardinality]) and an array of atomic
    words.  [set], [reset] and [test] decompose a position with [relocate]
    and then run a loop bounded by [MaxTries].

    The model is sequential: one call runs at a time, every atomic access
    reads the latest value.  Undefined behaviour of the C++ program (an
    array index out of range, a null or dangling pointer dereferenced) is
    the result [None]. *)

From Stdlib Require Import ZArith Lia Bool List Ascii.
From stdpp Require Import base tactics option list gmap.

Local Open Scope Z_scope.

Module lockfree.

(** enum class status { success, failed, not_found, yes, no }; *)
Inductive status : Set := success | failed | not_found | yes | no.

(** ** Machine integers

    [size_t] is 64 bits wide and [int] is 32 bits wide (LP64).  The literal
    [1] in [1 << n] has type [int], so the shift is an [int] shift: it is
    defined for [0 <= n < 32], and [1 << 31] is the most negative [int].
    [int_shl] is that shift on this range; beyond it the C++ shift is
    undefined, and the theorems do not shift there (see [wf_args]). *)

Definition to_size_t (z : Z) : Z := z mod 2 ^ 64.

Definition to_int (z : Z) : Z := (z + 2 ^ 31) mod 2 ^ 32 - 2 ^ 31.

Definition int_shl (a n : Z) : Z := to_int (Z.shiftl a n).

Definition size_t_shl (a n : Z) : Z := to_size_t (Z.shiftl a n).

(** ** Template arguments

    template <size_t Capacity, size_t BitsetWidth = 16,
              typename BitsetWord = uint32_t, size_t MaxTries = 32,
              typename Index = size_t>

    The two type arguments are unsigned integer types; the model keeps
    [sizeof(BitsetWord)] and the bit width of [Index]. *)

Class template_args : Set := TemplateArgs {
  Capacity : nat;
  BitsetWidth : Z;
  sizeof_BitsetWord : Z;
  MaxTries : nat;
  IndexBits : Z
}.

(** lockfree::atomic_bitset<1024>, the instance of src/samples/misc/bench.cc *)
Definition bench_args : template_args :=
  {| Capacity := 1024; BitsetWidth := 16; sizeof_BitsetWord := 4;
     MaxTries := 32; IndexBits := 64 |}.

(** The instance of the bucket-isolation example: 16 bits per bucket,
    8-bit words, so two words per bucket. *)
Definition small_args (capacity max_tries : nat) : template_args :=
  {| Capacity := capacity; BitsetWidth := 4; sizeof_BitsetWord := 1;
     MaxTries := max_tries; IndexBits := 64 |}.

Section atomic_bitset.

Context {T : template_args}.

(** 8 * sizeof(BitsetWord) *)
Definition WordBits : Z := to_size_t (8 * sizeof_BitsetWord).

(** conversion of an integer to [Index] and to [BitsetWord] *)
Definition to_Index (z : Z) : Z := z mod 2 ^ IndexBits.

Definition to_word (z : Z) : Z := z mod 2 ^ WordBits.

(** (1 << BitsetWidth) / (8 * sizeof(BitsetWord)): the length of [words] *)
Definition nwords : Z := to_size_t (int_shl 1 BitsetWidth) / WordBits.

(** inline size_t relocate(Index pos, size_t &bucket, size_t &index,
                            size_t &offset) const
    The result is (bucket, index, offset); the value returned by the C++
    function is the first component. *)
Definition relocate (pos : Z) : Z * Z * Z :=
  let bucket := to_size_t (Z.shiftr pos BitsetWidth) in
  let sub := to_size_t (Z.land pos (int_shl 1 BitsetWidth - 1)) in
  let index := sub / WordBits in
  let offset := Z.land sub (WordBits - 1) in
  (bucket, index, offset).

(** The argument of the retry calls: [bucket << BitsetWidth] is computed in
    [size_t] and converted to the parameter type [Index]. *)
Definition retry_pos (bucket : Z) : Z := to_Index (size_t_shl bucket BitsetWidth).

(** ** Bucket objects

    struct BitSetElement { size_t cardinality;
                           std::atomic<BitsetWord> words[...]; ... } *)
Record BitSetElement : Set := mkBitSetElement {
  cardinality : Z;
  words : list Z
}.

(** words[index].fetch_or(v): [v] is converted to [BitsetWord] *)
Definition fetch_or (ws : list Z) (index v : Z) : option (list Z) :=
  w ← ws !! Z.to_nat index;
  Some (<[Z.to_nat index := Z.lor w (to_word v)]> ws).

(** words[index].fetch_and(v) *)
Definition fetch_and (ws : list Z) (index v : Z) : option (list Z) :=
  w ← ws !! Z.to_nat index;
  Some (<[Z.to_nat index := Z.land w (to_word v)]> ws).

(** words[i].store(v) *)
Definition store_word (i : nat) (v : Z) (ws : list Z) : option (list Z) :=
  _ ← ws !! i;
  Some (<[i := to_word v]> ws).

(** for (size_t i = 0; i < n; i++) body(i), started at [i] with [n] rounds
    left *)
Fixpoint for_loop {St : Type} (body : nat → St → option St) (i n : nat)
    (s : St) : option St :=
  match n with
  | O => Some s
  | S n' => s' ← body i s; for_loop body (S i) n' s'
  end.

(** BitSetElement(size_t cardinality = 0, size_t index = 0,
                  size_t offset = ~0) *)
Definition BitSetElement_new (cardinality index offset : Z)
  : option BitSetElement :=
  let ws := replicate (Z.to_nat nwords) 0 in
  ws' ← (if offset <=? to_size_t (WordBits - 1)
         then fetch_or ws index (int_shl 1 offset)
         else Some ws);
  Some (mkBitSetElement cardinality ws').

(** void BitSetElement::set(size_t index, size_t offset) *)
Definition BitSetElement_set (e : BitSetElement) (index offset : Z)
  : option BitSetElement :=
  ws ← fetch_or (words e) index (int_shl 1 offset);
  Some (mkBitSetElement (cardinality e) ws).

(** void BitSetElement::reset(size_t index, size_t offset) *)
Definition BitSetElement_reset (e : BitSetElement) (index offset : Z)
  : option BitSetElement :=
  ws ← fetch_and (words e) index (Z.lnot (int_shl 1 offset));
  Some (mkBitSetElement (cardinality e) ws).

(** The operands of [words[index].load() & (1 << offset)] after the usual
    arithmetic conversions: a word narrower than [int] is promoted to
    [int]; otherwise the [int] operand is converted to the word type. *)
Definition usual_conv (v : Z) : Z :=
  if sizeof_BitsetWord <? 4 then v else to_word v.

(** bool BitSetElement::test(size_t index, size_t offset) const *)
Definition BitSetElement_test (e : BitSetElement) (index offset : Z)
  : option bool :=
  w ← words e !! Z.to_nat index;
  Some (negb (Z.land w (usual_conv (int_shl 1 offset)) =? 0)).

(** ** The machine state

    Pointers are indices into [heap]; a cell is [None] once deleted.
    [op_new] takes the next unused index.  [stdout] is the list of the values
    of [tries] printed by [printf("tries = %zu\n", tries)], oldest first. *)
Abbreviation ptr := nat (only parsing).

Record machine : Set := mkMachine {
  elements : list (option ptr);
  heap : list (option BitSetElement);
  stdout : list Z
}.

Definition deref (p : ptr) (m : machine) : option BitSetElement :=
  mjoin (heap m !! p).

Definition store (p : ptr) (e : BitSetElement) (m : machine) : machine :=
  mkMachine (elements m) (<[p := Some e]> (heap m)) (stdout m).

Definition op_new (e : BitSetElement) (m : machine) : ptr * machine :=
  (length (heap m), mkMachine (elements m) (heap m ++ [Some e]) (stdout m)).

Definition op_delete (p : ptr) (m : machine) : machine :=
  mkMachine (elements m) (<[p := None]> (heap m)) (stdout m).

Definition printf_tries (tries : Z) (m : machine) : machine :=
  mkMachine (elements m) (heap m) (stdout m ++ [tries]).

(** elements[bucket].load(): the outer [None] is an index out of range,
    [Some None] is the null pointer *)
Definition load (bucket : Z) (m : machine) : option (option ptr) :=
  elements m !! Z.to_nat bucket.

(** elements[bucket].compare_exchange_weak(expected, desired): the result
    is the success flag and the new value of [expected].  A weak
    compare-exchange may fail although the slot holds [expected];
    [spurious] says whether this one does. *)
Definition compare_exchange_weak (spurious : bool) (bucket : Z)
    (expected desired : option ptr) (m : machine)
  : option (bool * option ptr * machine) :=
  cur ← load bucket m;
  if bool_decide (cur = expected) && negb spurious
  then Some (true, expected,
             mkMachine (<[Z.to_nat bucket := desired]> (elements m))
                       (heap m) (stdout m))
  else Some (false, cur, m).

(** atomic_bitset(): every slot is null.  The heap and the output are
    whatever the program has made of them before. *)
Definition init (h : list (option BitSetElement)) (out : list Z) : machine :=
  mkMachine (replicate Capacity None) h out.

(** ** status set(Index pos)

    [left] is [MaxTries - tries]: the loop body runs while it is not zero,
    and every path through the body returns or increments [tries].  [card]
    is the local variable [cardinality]. *)
Fixpoint set_loop (left : nat) (spurious : bool)
    (card tries bucket index offset : Z) (newelt : option ptr)
    (m : machine) : option (status * machine) :=
  match left with
  | O =>
      Some (failed, match newelt with Some p => op_delete p m | None => m end)
  | S left' =>
      elt ← load bucket m;
      match elt with
      | None =>
          '(p, m1) ← match newelt with
                     | None =>
                         e ← BitSetElement_new card index offset;
                         Some (op_new e m)
                     | Some p =>
                         e ← deref p m;
                         e' ← BitSetElement_set e index offset;
                         Some (p, store p e' m)
                     end;
          '(ok, elt', m2) ← compare_exchange_weak spurious bucket elt (Some p) m1;
          if (ok : bool) then Some (success, m2)
          else
            q ← elt';
            e ← deref q m2;
            if cardinality e =? card then
              ws ← fetch_or (words e) index (int_shl 1 offset);
              Some (success, store q (mkBitSetElement (cardinality e) ws) m2)
            else
              n ← deref p m2;
              n' ← BitSetElement_reset n index offset;
              let m3 := store p n' m2 in
              let tries := to_size_t (tries + 1) in
              let m4 := printf_tries tries m3 in
              let '(bucket, index, offset) := relocate (retry_pos bucket) in
              set_loop left' spurious card tries bucket index offset
                       (Some p) m4
      | Some q =>
          e ← deref q m;
          if cardinality e =? card then
            e' ← BitSetElement_set e index offset;
            Some (success, store q e' m)
          else
            let tries := to_size_t (tries + 1) in
            let m1 := printf_tries tries m in
            let '(bucket, index, offset) := relocate (retry_pos bucket) in
            set_loop left' spurious card tries bucket index offset
                     newelt m1
      end
  end.

Definition set (spurious : bool) (pos : Z) (m : machine)
  : option (status * machine) :=
  let '(bucket, index, offset) := relocate pos in
  set_loop MaxTries spurious bucket 0 bucket index offset None m.

(** ** status reset(): the bulk clear *)
Definition clear_words (ws : list Z) : option (list Z) :=
  for_loop (λ i, store_word i 0) 0 (Z.to_nat nwords) ws.

Definition reset_slot (i : nat) (m : machine) : option machine :=
  element ← elements m !! i;
  match element with
  | None => Some m
  | Some p =>
      e ← deref p m;
      ws ← clear_words (words e);
      Some (store p (mkBitSetElement (cardinality e) ws) m)
  end.

Definition reset_all (m : machine) : option (status * machine) :=
  m' ← for_loop reset_slot 0 Capacity m;
  Some (success, m').

(** ** status reset(Index pos) *)
Fixpoint reset_loop (left : nat) (card tries bucket index offset : Z)
    (m : machine) : option (status * machine) :=
  match left with
  | O => Some (not_found, m)
  | S left' =>
      val ← load bucket m;
      match val with
      | None => Some (success, m)
      | Some q =>
          e ← deref q m;
          if cardinality e =? card then
            e' ← BitSetElement_reset e index offset;
            Some (success, store q e' m)
          else
            let tries := to_size_t (tries + 1) in
            let m1 := printf_tries tries m in
            let '(bucket, index, offset) := relocate (retry_pos bucket) in
            reset_loop left' card tries bucket index offset m1
      end
  end.

Definition reset (pos : Z) (m : machine) : option (status * machine) :=
  let '(bucket, index, offset) := relocate pos in
  reset_loop MaxTries bucket 0 bucket index offset m.

(** ** status test(Index pos) const *)
Fixpoint test_loop (left : nat) (card tries bucket index offset : Z)
    (m : machine) : option (status * machine) :=
  match left with
  | O => Some (not_found, m)
  | S left' =>
      val ← load bucket m;
      match val with
      | None => Some (no, m)
      | Some q =>
          e ← deref q m;
          if cardinality e =? card then
            b ← BitSetElement_test e index offset;
            Some (if (b : bool) then yes else no, m)
          else
            let tries := to_size_t (tries + 1) in
            let m1 := printf_tries tries m in
            let '(bucket, index, offset) := relocate (retry_pos bucket) in
            test_loop left' card tries bucket index offset m1
      end
  end.

Definition test (pos : Z) (m : machine) : option (status * machine) :=
  let '(bucket, index, offset) := relocate pos in
  test_loop MaxTries bucket 0 bucket index offset m.

(** ** Calls and runs *)

Inductive call : Set :=
  | call_set (spurious : bool) (pos : Z)
  | call_reset_all
  | call_reset (pos : Z)
  | call_test (pos : Z).

Definition exec (c : call) (m : machine) : option (status * machine) :=
  match c with
  | call_set spurious pos => set spurious pos m
  | call_reset_all => reset_all m
  | call_reset pos => reset pos m
  | call_test pos => test pos m
  end.

(** A run executes the calls in order; it has a final state when no call
    runs into undefined behaviour. *)
Fixpoint run (cs : list call) (m : machine) : option machine :=
  match cs with
  | [] => Some m
  | c :: cs' => '(_, m') ← exec c m; run cs' m'
  end.

(** pos < Capacity × 2^BitsetWidth *)
Definition valid_pos (pos : Z) : Prop :=
  0 ≤ pos < Z.of_nat Capacity * 2 ^ BitsetWidth.

Definition valid_call (c : call) : Prop :=
  match c with
  | call_set _ pos | call_reset pos | call_test pos => valid_pos pos
  | call_reset_all => True
  end.

(** the calls that may clear bit [pos] *)
Definition clears (pos : Z) (c : call) : Prop :=
  c = call_reset pos ∨ c = call_reset_all.

(** The states of a bit-set from its construction on, under calls at valid
    positions only. *)
Inductive reachable : machine → Prop :=
  | reachable_init h out : reachable (init h out)
  | reachable_exec m c st m' :
      reachable m → valid_call c → exec c m = Some (st, m') → reachable m'.

(** The template arguments the code is written for: [1 << BitsetWidth] and
    [1 << offset] are [int] shifts without overflow, a bucket has at least
    one word, the loops run at least once, and [Capacity] is a [size_t]. *)
Definition wf_args : Prop :=
  0 ≤ BitsetWidth ≤ 30 ∧
  (sizeof_BitsetWord = 1 ∨ sizeof_BitsetWord = 2 ∨ sizeof_BitsetWord = 4) ∧
  WordBits ≤ 2 ^ BitsetWidth ∧
  (0 < MaxTries)%nat ∧
  Z.of_nat Capacity < 2 ^ 64.

(** ** Ghost view and representation invariant *)

(** the bucket object a slot owns *)
Definition owned (m : machine) (i : nat) : option BitSetElement :=
  p ← mjoin (elements m !! i); deref p m.

(** the words of bucket [i]: an empty slot stands for a bucket of zeros *)
Definition bucket_words (m : machine) (i : nat) : list Z :=
  match owned m i with
  | Some e => words e
  | None => replicate (Z.to_nat nwords) 0
  end.

(** the value of bit [pos] *)
Definition bit (m : machine) (pos : Z) : bool :=
  let '(bucket, index, offset) := relocate pos in
  Z.testbit (default 0 (bucket_words m (Z.to_nat bucket) !! Z.to_nat index))
            offset.

(** Bucket [j] after the word of [pos] has been replaced by [f w offset],
    [w] being its old value; the other buckets are as they were. *)
Definition word_update (f : Z → Z → Z) (pos : Z) (m : machine) (j : nat)
  : list Z :=
  let '(bucket, index, offset) := relocate pos in
  if decide (j = Z.to_nat bucket)
  then <[Z.to_nat index :=
           f (default 0 (bucket_words m j !! Z.to_nat index)) offset]>
         (bucket_words m j)
  else bucket_words m j.

Definition or_bit (w offset : Z) : Z := Z.lor w (to_word (int_shl 1 offset)).

Definition and_not_bit (w offset : Z) : Z :=
  Z.land w (to_word (Z.lnot (int_shl 1 offset))).

(** what [set] does to an empty slot: the new object goes to the end of the
    heap and its address into slot [i] *)
Definition install (i : nat) (e : BitSetElement) (m : machine) : machine :=
  mkMachine (<[i := Some (length (heap m))]> (elements m))
            (heap m ++ [Some e]) (stdout m).

Record inv (m : machine) : Prop := mkInv {
  inv_length : length (elements m) = Capacity;
  inv_owned i p :
    elements m !! i = Some (Some p) →
    ∃ e, deref p m = Some e ∧ cardinality e = Z.of_nat i ∧
         length (words e) = Z.to_nat nwords;
  inv_alias i j p :
    elements m !! i = Some (Some p) → elements m !! j = Some (Some p) → i = j
}.

(** the value of bit [x] after call [c], from its value before *)
Definition bit_after (c : call) (old : bool) (x : Z) : bool :=
  match c with
  | call_set _ pos => old || bool_decide (x = pos)
  | call_reset pos => old && negb (bool_decide (x = pos))
  | call_reset_all => false
  | call_test _ => old
  end.

(** every slot that holds an object in [m] holds the same object in [m'] *)
Definition slots_kept (m m' : machine) : Prop :=
  ∀ i p, elements m !! i = Some (Some p) → elements m' !! i = Some (Some p).

End atomic_bitset.

(** ** Example states, for [small_args 4 32] *)

Definition demo_args : template_args := small_args 4 32.

(** a new bit-set *)
Definition demo_init : machine := init (T := demo_args) [] [].

(** the same after [set(5)] *)
Definition demo_set5 : machine :=
  mkMachine [Some 0%nat; None; None; None]
            [Some (mkBitSetElement 0 [32; 0])] [].

(** three more calls, and the state they lead to *)
Definition demo_calls : list call :=
  [call_set false 16; call_reset 6; call_test 5].

Definition demo_final : machine :=
  mkMachine [Some 0%nat; Some 1%nat; None; None]
            [Some (mkBitSetElement 0 [32; 0]); Some (mkBitSetElement 1 [1; 0])]
            [].

(** An instance with 64-bit words, outside [wf_args]. *)
Definition wide_args : template_args :=
  {| Capacity := 1; BitsetWidth := 16; sizeof_BitsetWord := 8;
     MaxTries := 32; IndexBits := 64 |}.

(** ** The bit-set as a set of positions

    What the calls do to a mathematical set of positions, and the status
    they return there. *)

Definition abs_exec (c : call) (S : gset Z) : gset Z :=
  match c with
  | call_set _ pos => {[pos]} ∪ S
  | call_reset_all => ∅
  | call_reset pos => S ∖ {[pos]}
  | call_test _ => S
  end.

Definition abs_status (c : call) (S : gset Z) : status :=
  match c with
  | call_test pos => if bool_decide (pos ∈ S) then yes else no
  | _ => success
  end.

Fixpoint abs_trace (cs : list call) (S : gset Z) : list status :=
  match cs with
  | [] => []
  | c :: cs' => abs_status c S :: abs_trace cs' (abs_exec c S)
  end.

(** the statuses returned by the calls of a run, in order *)
Fixpoint trace {T : template_args} (cs : list call) (m : machine)
  : option (list status * machine) :=
  match cs with
  | [] => Some ([], m)
  | c :: cs' =>
      '(st, m') ← exec c m;
      '(sts, m'') ← trace cs' m';
      Some (st :: sts, m'')
  end.

(** a call whose compare-exchange, if it runs one, does not fail spuriously *)
Definition no_spurious (c : call) : Prop :=
  match c with
  | call_set spurious _ => spurious = false
  | _ => True
  end.

(** state [m] holds exactly the positions of [S] *)
Definition agree {T : template_args} (m : machine) (S : gset Z) : Prop :=
  ∀ x, valid_pos x → bit m x = bool_decide (x ∈ S).

(** a value of the type [BitsetWord] *)
Definition is_word {T : template_args} (w : Z) : Prop := 0 ≤ w < 2 ^ WordBits.

(** every word of every bucket is a value of the word type *)
Definition words_in_range {T : template_args} (m : machine) : Prop :=
  ∀ j, Forall is_word (bucket_words m j).

(** the calls that allocate: [set] at a position whose slot is empty *)
Definition allocates {T : template_args} (c : call) (m : machine) : bool :=
  match c with
  | call_set _ pos =>
      let '(bucket, _, _) := relocate pos in
      bool_decide (load bucket m = Some None)
  | _ => false
  end.

(** pointer [p] is held by no slot *)
Definition unowned (m : machine) (p : nat) : Prop :=
  ∀ i, elements m !! i ≠ Some (Some p).

(** the values of [tries] printed by [n] rounds of the mismatch branch that
    start with [tries = t]: [t + 1], ..., [t + n] *)
Definition printed_tries (t n : nat) : list Z := map Z.of_nat (seq (S t) n).

(** the state after the mismatch branch has run [n] times from [tries = 0]:
    nothing but the output has changed *)
Definition after_retries (n : nat) (m : machine) : machine :=
  mkMachine (elements m) (heap m) (stdout m ++ printed_tries 0 n).

(** [m'] has [n] more heap cells than [m], every live object of [m] is
    live in [m'], and the cells that no slot of [m] points to are as they
    were *)
Definition heap_kept (n : nat) (m m' : machine) : Prop :=
  length (heap m') = (length (heap m) + n)%nat ∧
  (∀ p, is_Some (deref p m) → is_Some (deref p m')) ∧
  (∀ p, unowned m p → (p < length (heap m))%nat → heap m' !! p = heap m !! p).

(** ** More example states, for [demo_args] *)

(** a run that sets, tests and clears *)
Definition demo_trace : list call :=
  [call_set false 5; call_test 5; call_test 6; call_reset 5; call_test 5].

(** a state that the calls do not produce: slot 0 holds an object with the
    tag 7 *)
Definition demo_mismatch : machine :=
  mkMachine [Some 0%nat; None; None; None]
            [Some (mkBitSetElement 7 [0; 0])] [].

(** ** src/samples/misc/bench.cc: the self-check of the benchmark

    Before it measures a container, the benchmark fills it with the
    positions of [ranges] ([set_all]) and checks that it holds exactly
    those ([test_all]). *)

(** struct range { size_t min; size_t max; size_t size() { return max - min; } } *)
Record range : Set := mkRange { range_min : Z; range_max : Z }.

Definition range_size (r : range) : Z := to_size_t (range_max r - range_min r).

(** for (size_t i = lo; i < hi; i++) body(i) *)
Definition for_range {St : Type} (lo hi : Z) (body : Z → St → option St)
    (s : St) : option St :=
  for_loop (λ k, body (lo + Z.of_nat k)) 0 (Z.to_nat (hi - lo)) s.

(** for (auto r : ranges) body(r) *)
Fixpoint for_each {A St : Type} (l : list A) (body : A → St → option St)
    (s : St) : option St :=
  match l with
  | [] => Some s
  | a :: l' => s' ← body a s; for_each l' body s'
  end.

(** auto set_all = [&](std::function<void(size_t)> setter) *)
Definition set_all {St : Type} (ranges : list range)
    (setter : Z → St → option St) (s : St) : option (bool * St) :=
  s' ← for_each ranges
         (λ r, for_range (range_min r) (range_max r) setter) s;
  Some (true, s').

(** the lines that [test_all] writes to [std::cout] *)
Inductive cout_line : Set :=
  | line_counts (n expected : Z)
  | line_unexpected_yes (i : Z)
  | line_unexpected_no (i : Z).

(** the first loop of [test_all]: (min, max, expected) *)
Definition scan_bounds (ranges : list range) : Z * Z * Z :=
  fold_left
    (λ '(min, max, expected) r,
       (Z.min min (range_min r), Z.max max (range_max r),
        to_size_t (expected + range_size r)))
    ranges (to_size_t (Z.lnot 0), 0, 0).

(** the body of the diagnostic loop of [test_all] *)
Definition report {St : Type} (getter : Z → St → option (bool * St))
    (r : range) (i : Z) (st : St * list cout_line)
  : option (St * list cout_line) :=
  let '(s, out) := st in
  '(b, s') ← getter i s;
  if (b : bool) then
    if (i <? range_min r) || (range_max r <=? i)
    then Some (s', out ++ [line_unexpected_yes i])
    else Some (s', out)
  else
    if (range_min r <=? i) && (i <? range_max r)
    then Some (s', out ++ [line_unexpected_no i])
    else Some (s', out).

(** auto test_all = [&](std::function<bool(size_t)> getter) *)
Definition test_all {St : Type} (ranges : list range)
    (getter : Z → St → option (bool * St)) (s : St)
  : option (bool * St * list cout_line) :=
  let '(min, max, expected) := scan_bounds ranges in
  '(n, s1) ← for_range (to_size_t (min * 2) / 3) (to_size_t (max * 3) / 2)
               (λ i '(n, s), '(b, s') ← getter i s;
                             Some (to_size_t (n + Z.b2z b), s'))
               (0, s);
  if negb (n =? expected) then
    '(s2, out) ← for_each ranges
                   (λ r, for_range (to_size_t (range_min r * 2) / 3)
                                   (to_size_t (range_max r * 3) / 2)
                                   (report getter r))
                   (s1, [line_counts n expected]);
    Some (false, s2, out)
  else Some (true, s1, []).

(** [&](size_t i) { set.set(i); } *)
Definition bitset_setter {T : template_args} (spurious : bool) (i : Z)
    (m : machine) : option machine :=
  '(_, m') ← set spurious i m; Some m'.

(** [&](size_t i) { return set.test(i) == lockfree::status::yes; } *)
Definition bitset_getter {T : template_args} (i : Z) (m : machine)
  : option (bool * machine) :=
  '(st, m') ← test i m;
  Some (match st with yes => true | _ => false end, m').

(** lockfree::atomic_bitset<...> set;
    if (!set_all(...) || !test_all(...)) { exit(1); }
    The result [false] is the exit. *)
Definition bench_check {T : template_args} (ranges : list range)
    (spurious : bool) (h : list (option BitSetElement)) (out : list Z)
  : option (bool * machine * list cout_line) :=
  '(ok, m1) ← set_all ranges (bitset_setter spurious) (init h out);
  if negb ok then Some (false, m1, [])
  else test_all ranges bitset_getter m1.

(** the ranges of the benchmark *)
Definition bench_ranges : list range :=
  [mkRange 10 20; mkRange 100 110; mkRange 10000 10200].

(** position [x] lies in one of the ranges *)
Definition in_ranges (ranges : list range) (x : Z) : bool :=
  existsb (λ r, (range_min r <=? x) && (x <? range_max r)) ranges.

(** the ranges do not overlap *)
Fixpoint disjoint_ranges (ranges : list range) : Prop :=
  match ranges with
  | [] => True
  | r :: rs =>
      Forall (λ r', range_max r ≤ range_min r' ∨ range_max r' ≤ range_min r)
             rs ∧
      disjoint_ranges rs
  end.

(** how many of the [k] positions from [lo] on satisfy [P] *)
Fixpoint count_from (P : Z → bool) (lo : Z) (k : nat) : Z :=
  match k with
  | O => 0
  | S k' => count_from P lo k' + Z.b2z (P (lo + Z.of_nat k'))
  end.

(** the number of positions of the ranges, as an integer *)
Fixpoint sum_sizes (ranges : list range) : Z :=
  match ranges with
  | [] => 0
  | r :: rs => (range_max r - range_min r) + sum_sizes rs
  end.

(** the bits of [m] at the valid positions are those of [P] *)
Definition bits_are {T : template_args} (m : machine) (P : Z → bool) : Prop :=
  ∀ x, valid_pos x → bit m x = P x.

(** ** src/lockfree.h: rounding up to a power of two

    [w] is the bit width of the unsigned type [T]. *)

(** template <class T> constexpr T or_equal(T x, unsigned u)
    { return x | x >> u; } *)
Definition or_equal (w : Z) (x u : Z) : Z :=
  Z.lor x (Z.shiftr x u) mod 2 ^ w.

(** template <class T, class... Args>
    constexpr T or_equal(T x, unsigned u, Args... rest)
    { return or_equal(or_equal(x, u), rest...); }
    with the shift counts [u, rest...] as a list *)
Fixpoint or_equal_all (w : Z) (x : Z) (us : list Z) : Z :=
  match us with
  | [] => x
  | u :: rest => or_equal_all w (or_equal w x u) rest
  end.

(** constexpr uint32_t round_up_to_power_of_2(uint32_t a) *)
Definition round_up_to_power_of_2_u32 (a : Z) : Z :=
  (or_equal_all 32 ((a - 1) mod 2 ^ 32) [1; 2; 4; 8; 16] + 1) mod 2 ^ 32.

(** constexpr uint64_t round_up_to_power_of_2(uint64_t a) *)
Definition round_up_to_power_of_2_u64 (a : Z) : Z :=
  (or_equal_all 64 ((a - 1) mod 2 ^ 64) [1; 2; 4; 8; 16; 32] + 1) mod 2 ^ 64.

(** bit [i] of [y] is set exactly when one of the [n] bits of [x] from [i]
    upwards is set *)
Definition smeared (n x y : Z) : Prop :=
  ∀ i, 0 ≤ i →
       Z.testbit y i = true ↔ ∃ j, 0 ≤ j < n ∧ Z.testbit x (i + j) = true.

(** the shift counts [n], [2n], [4n], ...: [k] of them *)
Fixpoint doubling (n : Z) (k : nat) : list Z :=
  match k with
  | O => []
  | S k' => n :: doubling (2 * n) k'
  end.

(** ** src/tabulate.cc: struct TrueColor (namespace tabulate)

    [hex] is an [int]; every value computed below is less than 2^24, so no
    operation overflows. *)

(** enum class Color { black, red, green, yellow, blue, magenta, cyan, white,
                       RESERVED, none }; *)
Inductive Color : Set :=
  | black | red | green | yellow | blue | magenta | cyan | white
  | Color_RESERVED | Color_none.

Record TrueColor : Set := mkTrueColor { hex : Z; color : Color }.

(** static const int DEFAULT = 0xFF000000; *)
Definition TrueColor_DEFAULT : Z := to_int 4278190080.

(** #define BYTEn(v, n) (((v) >> ((n) * 8)) & 0xFF) *)
Definition BYTEn (v n : Z) : Z := Z.land (Z.shiftr v (n * 8)) 255.

(** TrueColor::TrueColor() *)
Definition TrueColor_default : TrueColor :=
  mkTrueColor TrueColor_DEFAULT Color_none.

(** TrueColor::TrueColor(int hex) *)
Definition TrueColor_of_hex (h : Z) : TrueColor := mkTrueColor h Color_none.

(** TrueColor::TrueColor(Color color) *)
Definition TrueColor_of_Color (c : Color) : TrueColor :=
  mkTrueColor
    (match c with
     | black => 8421504     (* 0x808080 *)
     | red => 16711680      (* 0xFF0000 *)
     | green => 32768       (* 0x008000 *)
     | yellow => 16776960   (* 0xFFFF00 *)
     | blue => 255          (* 0x0000FF *)
     | magenta => 16711935  (* 0xFF00FF *)
     | cyan => 65535        (* 0x00FFFF *)
     | white => 16777215    (* 0xFFFFFF *)
     | Color_RESERVED | Color_none => TrueColor_DEFAULT
     end) c.

(** bool TrueColor::none() const *)
Definition TrueColor_none (t : TrueColor) : bool := hex t =? TrueColor_DEFAULT.

(** std::tuple<unsigned char, unsigned char, unsigned char>
    TrueColor::RGB() const *)
Definition TrueColor_RGB (t : TrueColor) : Z * Z * Z :=
  (BYTEn (hex t) 2, BYTEn (hex t) 1, BYTEn (hex t) 0).

(** the argument of the constructor in [merge]: (rr << 16) | (gg << 8) | bb *)
Definition pack_rgb (rr gg bb : Z) : Z :=
  Z.lor (Z.lor (Z.shiftl rr 16) (Z.shiftl gg 8)) bb.

(** TrueColor TrueColor::merge(const TrueColor &a, const TrueColor &b) *)
Definition TrueColor_merge (a b : TrueColor) : TrueColor :=
  let rr := (BYTEn (hex a) 2 + BYTEn (hex b) 2 + 1) ÷ 2 in
  let gg := (BYTEn (hex a) 1 + BYTEn (hex b) 1 + 1) ÷ 2 in
  let bb := (BYTEn (hex a) 0 + BYTEn (hex b) 0 + 1) ÷ 2 in
  TrueColor_of_hex (pack_rgb rr gg bb).

(** ** src/tabulate.cc: explode_string (namespace tabulate)

    A [std::string] is the list of its characters.  A call that throws
    [std::out_of_range] has the result [throws]. *)

Inductive outcome (A : Type) : Type :=
  | returns (a : A)
  | throws
  | out_of_fuel.
Arguments returns {A} a.
Arguments throws {A}.
Arguments out_of_fuel {A}.

(** the search of [find] in the part of the string that starts at index
    [i] *)
Fixpoint find_at (s sep : list ascii) (i : nat) : option nat :=
  if bool_decide (sep `prefix_of` s) then Some i
  else match s with
       | [] => None
       | _ :: s' => find_at s' sep (S i)
       end.

(** input.find(sep, pos): [None] is [std::string::npos] *)
Definition string_find (input sep : list ascii) (pos : nat) : option nat :=
  if bool_decide (pos ≤ length input)%nat
  then find_at (drop pos input) sep pos
  else None.

(** input.substr(pos, n) *)
Definition substr (input : list ascii) (pos n : nat) : outcome (list ascii) :=
  if bool_decide (pos ≤ length input)%nat
  then returns (take n (drop pos input))
  else throws.

(** input.substr(pos) *)
Definition substr_from (input : list ascii) (pos : nat)
  : outcome (list ascii) :=
  if bool_decide (pos ≤ length input)%nat
  then returns (drop pos input)
  else throws.

(** s[0]: the first character, the null character for the empty string *)
Definition first_char (s : list ascii) : ascii :=
  match s with
  | c :: _ => c
  | [] => Ascii.zero
  end.

(** isspace in the "C" locale: space, \t, \n, \v, \f, \r *)
Definition isspace (c : ascii) : bool :=
  let n := nat_of_ascii c in
  (n =? 32)%nat || ((9 <=? n)%nat && (n <=? 13)%nat).

(** the lambda [first_of] of explode_string *)
Definition first_of (input : list ascii) (start : nat)
    (separators : list (list ascii)) : option nat :=
  match omap (λ c, string_find input c start) separators with
  | [] => None
  | i :: indices => Some (foldr Nat.min i indices)
  end.

(** the loop [while (true)] of explode_string *)
Fixpoint explode_loop (fuel : nat) (input : list ascii)
    (separators : list (list ascii)) (start : nat)
    (segments : list (list ascii)) : outcome (list (list ascii)) :=
  match fuel with
  | O => out_of_fuel
  | S fuel' =>
      match first_of input start separators with
      | None =>
          match substr_from input start with
          | returns rest => returns (segments ++ [rest])
          | throws => throws
          | out_of_fuel => out_of_fuel
          end
      | Some index =>
          match substr input start (index - start),
                substr input index 1 with
          | returns word, returns next =>
              let next_character := first_char next in
              let segments' :=
                if isspace next_character
                then segments ++ [word; [next_character]]
                else segments ++ [word ++ [next_character]] in
              explode_loop fuel' input separators (index + 1) segments'
          | _, _ => throws
          end
      end
  end.

(** std::vector<std::string> explode_string(const std::string &input,
      const std::vector<std::string> &separators)
    The loop runs at most [length input + 2] times. *)
Definition explode_string (input : list ascii)
    (separators : list (list ascii)) : outcome (list (list ascii)) :=
  explode_loop (length input + 2) input separators 0 [].

(** the separators of wrap_lines: {" ", "-", "\t"} *)
Definition wrap_separators : list (list ascii) :=
  [[" "%char]; ["-"%char]; ["009"%char]].

(** ** src/tabulate.cc: replace_all (namespace tabulate) *)

(** while ((curr = str.find(from, curr)) != std::string::npos) {
      str.replace(curr, from.length(), to);
      curr += to.length();
    } *)
Fixpoint replace_loop (fuel : nat) (str from to : list ascii) (curr : nat)
  : outcome (list ascii) :=
  match fuel with
  | O => out_of_fuel
  | S fuel' =>
      match string_find str from curr with
      | None => returns str
      | Some i =>
          replace_loop fuel'
            (take i str ++ to ++ drop (i + length from) str) from to
            (i + length to)
      end
  end.

(** std::string replace_all(std::string str, const std::string &from,
                            const std::string &to)
    With [from] not empty the loop runs at most [length str + 1] times. *)
Definition replace_all (str from to : list ascii) : outcome (list ascii) :=
  replace_loop (length str + 1) str from to 0.

(** Replacement from left to right, as a scan of the string: where [from]
    starts, write [to] and go on behind [from]; elsewhere copy one
    character.  [n] bounds the number of steps. *)
Fixpoint replace_model (n : nat) (from to s : list ascii) : list ascii :=
  match n with
  | O => s
  | S n' =>
      if bool_decide (from `prefix_of` s)
      then to ++ replace_model n' from to (drop (length from) s)
      else match s with
           | [] => []
           | c :: s' => c :: replace_model n' from to s'
           end
  end.

(** * Machine arithmetic *)

Lemma to_int_small z : - 2 ^ 31 ≤ z < 2 ^ 31 → to_int z = z.
Proof. intros Hz. unfold to_int. rewrite Z.mod_small; lia. Qed.

Lemma to_int_mod z : to_int z mod 2 ^ 32 = z mod 2 ^ 32.
Proof.
  unfold to_int. rewrite Zminus_mod_idemp_l. f_equal. lia.
Qed.

Lemma to_int_testbit z k : 0 ≤ k < 32 → Z.testbit (to_int z) k = Z.testbit z k.
Proof.
  intros Hk.
  rewrite <- (Z.mod_pow2_bits_low (to_int z) 32 k) by lia.
  rewrite to_int_mod. apply Z.mod_pow2_bits_low. lia.
Qed.

Lemma int_shl_1_small n : 0 ≤ n ≤ 30 → int_shl 1 n = 2 ^ n.
Proof.
  intros Hn. unfold int_shl. rewrite Z.shiftl_1_l.
  apply to_int_small.
  assert (0 < 2 ^ n) by (apply Z.pow_pos_nonneg; lia).
  assert (2 ^ n ≤ 2 ^ 30) by (apply Z.pow_le_mono_r; lia).
  lia.
Qed.

Lemma int_shl_1_testbit n k :
  0 ≤ n → 0 ≤ k < 32 → Z.testbit (int_shl 1 n) k = (k =? n).
Proof.
  intros Hn Hk. unfold int_shl.
  rewrite to_int_testbit, Z.shiftl_1_l by lia.
  rewrite Z.pow2_bits_eqb by lia. apply Z.eqb_sym.
Qed.

Lemma land_pow2_eqb w o : 0 ≤ o → (Z.land w (2 ^ o) =? 0) = negb (Z.testbit w o).
Proof.
  intros Ho.
  assert (Z.land w (2 ^ o) = if Z.testbit w o then 2 ^ o else 0) as ->.
  { apply Z.bits_inj'. intros k Hk. rewrite Z.land_spec.
    destruct (Z.testbit w o) eqn:Hw.
    - rewrite Z.pow2_bits_eqb by lia.
      destruct (Z.eqb_spec o k) as [<-|]; [by rewrite Hw | apply andb_false_r].
    - rewrite Z.bits_0, Z.pow2_bits_eqb by lia.
      destruct (Z.eqb_spec o k) as [<-|]; [by rewrite Hw | apply andb_false_r]. }
  destruct (Z.testbit w o); [|done].
  apply Z.eqb_neq. assert (0 < 2 ^ o) by (apply Z.pow_pos_nonneg; lia). lia.
Qed.

Section arithmetic.

Context {T : template_args}.
Hypothesis Hwf : wf_args.

Lemma WordBits_cases : WordBits = 8 ∨ WordBits = 16 ∨ WordBits = 32.
Proof.
  destruct Hwf as (_ & Hs & _). unfold WordBits, to_size_t.
  destruct Hs as [-> | [-> | ->]]; auto.
Qed.

Lemma WordBits_pow2 : ∃ k, 0 ≤ k ≤ 5 ∧ WordBits = 2 ^ k.
Proof.
  destruct WordBits_cases as [-> | [-> | ->]];
    [exists 3 | exists 4 | exists 5]; split; (lia || reflexivity).
Qed.

Lemma BucketBits_eq : int_shl 1 BitsetWidth = 2 ^ BitsetWidth.
Proof. destruct Hwf as (Hb & _). by apply int_shl_1_small. Qed.

Lemma BucketBits_pos : 0 < 2 ^ BitsetWidth.
Proof. destruct Hwf as (Hb & _). apply Z.pow_pos_nonneg; lia. Qed.

Lemma BucketBits_lt : 2 ^ BitsetWidth < 2 ^ 64.
Proof. destruct Hwf as (Hb & _). apply Z.pow_lt_mono_r; lia. Qed.

(** a bucket is a whole number of words *)
Lemma BucketBits_words : 2 ^ BitsetWidth = WordBits * nwords.
Proof.
  pose proof BucketBits_pos. pose proof BucketBits_lt.
  destruct Hwf as (Hb & _ & Hle & _).
  unfold nwords. rewrite BucketBits_eq.
  unfold to_size_t at 1. rewrite Z.mod_small by lia.
  destruct WordBits_pow2 as (k & Hk & HW). rewrite HW in *.
  assert (k ≤ BitsetWidth).
  { destruct (Z.le_gt_cases k BitsetWidth) as [|Hlt]; [done|].
    apply (Z.pow_lt_mono_r 2) in Hlt; lia. }
  replace BitsetWidth with (k + (BitsetWidth - k)) at 1 2 by lia.
  rewrite Z.pow_add_r by lia.
  rewrite (Z.mul_comm (2 ^ k)), Z.div_mul; [lia|].
  assert (0 < 2 ^ k) by (apply Z.pow_pos_nonneg; lia). lia.
Qed.

Lemma nwords_pos : 0 < nwords.
Proof.
  pose proof BucketBits_pos. pose proof BucketBits_words.
  destruct WordBits_cases as [HW | [HW | HW]]; rewrite HW in *; lia.
Qed.

(** the decomposition of a valid position *)
Lemma relocate_valid pos :
  valid_pos pos →
  relocate pos =
    (pos / 2 ^ BitsetWidth,
     pos mod 2 ^ BitsetWidth / WordBits,
     (pos mod 2 ^ BitsetWidth) mod WordBits).
Proof.
  intros Hpos. unfold valid_pos in Hpos.
  pose proof BucketBits_pos as Hbp. pose proof BucketBits_lt as Hbl.
  destruct Hwf as (Hb & _ & _ & _ & Hcap).
  unfold relocate. rewrite BucketBits_eq.
  assert (Z.land pos (2 ^ BitsetWidth - 1) = pos mod 2 ^ BitsetWidth) as ->.
  { replace (2 ^ BitsetWidth - 1) with (Z.ones BitsetWidth)
      by (rewrite Z.ones_equiv; lia).
    apply Z.land_ones. lia. }
  rewrite Z.shiftr_div_pow2 by lia.
  pose proof (Z.mod_pos_bound pos (2 ^ BitsetWidth) Hbp) as Hsub.
  assert (0 ≤ pos / 2 ^ BitsetWidth < Z.of_nat Capacity) as Hbk.
  { split; [apply Z.div_pos; lia|]. apply Z.div_lt_upper_bound; lia. }
  unfold to_size_t. rewrite !Z.mod_small by lia.
  f_equal.
  destruct WordBits_pow2 as (k & Hk & ->).
  replace (2 ^ k - 1) with (Z.ones k) by (rewrite Z.ones_equiv; lia).
  apply Z.land_ones. lia.
Qed.

Lemma valid_bucket pos :
  valid_pos pos → 0 ≤ pos / 2 ^ BitsetWidth < Z.of_nat Capacity.
Proof.
  intros Hpos. unfold valid_pos in Hpos. pose proof BucketBits_pos.
  split; [apply Z.div_pos; lia|]. apply Z.div_lt_upper_bound; lia.
Qed.

Lemma valid_index pos :
  valid_pos pos → 0 ≤ pos mod 2 ^ BitsetWidth / WordBits < nwords.
Proof.
  intros Hpos. pose proof BucketBits_pos as Hbp.
  pose proof (Z.mod_pos_bound pos (2 ^ BitsetWidth) Hbp) as Hsub.
  pose proof BucketBits_words as Hw.
  assert (0 < WordBits) by (destruct WordBits_cases as [-> | [-> | ->]]; lia).
  split; [apply Z.div_pos; lia|]. apply Z.div_lt_upper_bound; lia.
Qed.

Lemma valid_offset pos :
  valid_pos pos → 0 ≤ (pos mod 2 ^ BitsetWidth) mod WordBits < WordBits.
Proof.
  intros _. apply Z.mod_pos_bound.
  destruct WordBits_cases as [-> | [-> | ->]]; lia.
Qed.

(** [relocate] is injective on valid positions *)
Lemma relocate_inj pos pos' :
  valid_pos pos → valid_pos pos' → relocate pos = relocate pos' → pos = pos'.
Proof.
  intros Hp Hp'. rewrite !relocate_valid by done. intros [= Hb Hi Ho].
  pose proof BucketBits_pos.
  assert (0 < WordBits) by (destruct WordBits_cases as [-> | [-> | ->]]; lia).
  rewrite (Z.div_mod pos (2 ^ BitsetWidth)) by lia.
  rewrite (Z.div_mod pos' (2 ^ BitsetWidth)) by lia.
  rewrite (Z.div_mod (pos mod 2 ^ BitsetWidth) WordBits) by lia.
  rewrite (Z.div_mod (pos' mod 2 ^ BitsetWidth) WordBits) by lia.
  congruence.
Qed.

(** the three bit operations on a word, seen bit by bit *)
Lemma fetch_or_bit w o k :
  0 ≤ o < WordBits → 0 ≤ k < WordBits →
  Z.testbit (Z.lor w (to_word (int_shl 1 o))) k = Z.testbit w k || (k =? o).
Proof.
  intros Ho Hk. rewrite Z.lor_spec. f_equal. unfold to_word.
  rewrite Z.mod_pow2_bits_low by lia.
  apply int_shl_1_testbit; destruct WordBits_cases as [HW | [HW | HW]]; lia.
Qed.

Lemma fetch_and_bit w o k :
  0 ≤ o < WordBits → 0 ≤ k < WordBits →
  Z.testbit (Z.land w (to_word (Z.lnot (int_shl 1 o)))) k
  = Z.testbit w k && negb (k =? o).
Proof.
  intros Ho Hk. rewrite Z.land_spec. f_equal. unfold to_word.
  rewrite Z.mod_pow2_bits_low, Z.lnot_spec by lia. f_equal.
  apply int_shl_1_testbit; destruct WordBits_cases as [HW | [HW | HW]]; lia.
Qed.

Lemma test_bit w o :
  0 ≤ o < WordBits →
  negb (Z.land w (usual_conv (int_shl 1 o)) =? 0) = Z.testbit w o.
Proof.
  intros Ho.
  assert (usual_conv (int_shl 1 o) = 2 ^ o) as ->.
  { assert (0 < 2 ^ o) by (apply Z.pow_pos_nonneg; lia).
    destruct Hwf as (_ & Hs & _). unfold usual_conv, to_word.
    destruct Hs as [Hs | [Hs | Hs]].
    - assert (WordBits = 8) as HW by (unfold WordBits; by rewrite Hs).
      rewrite Hs. apply int_shl_1_small. lia.
    - assert (WordBits = 16) as HW by (unfold WordBits; by rewrite Hs).
      rewrite Hs. apply int_shl_1_small. lia.
    - assert (WordBits = 32) as HW by (unfold WordBits; by rewrite Hs).
      rewrite Hs, HW. cbn [Z.ltb Z.compare Pos.compare Pos.compare_cont].
      unfold int_shl. rewrite Z.shiftl_1_l, to_int_mod.
      apply Z.mod_small.
      assert (2 ^ o < 2 ^ 32) by (apply Z.pow_lt_mono_r; lia). lia. }
  rewrite land_pow2_eqb by lia. apply negb_involutive.
Qed.

End arithmetic.

(** * The heap and the slots *)

Section representation.

Context {T : template_args}.

Lemma deref_Some p m e : deref p m = Some e → heap m !! p = Some (Some e).
Proof.
  unfold deref. destruct (heap m !! p) as [[e'|]|]; simpl; congruence.
Qed.

Lemma deref_lt p m e : deref p m = Some e → (p < length (heap m))%nat.
Proof. intros H%deref_Some. by eapply lookup_lt_Some. Qed.

Lemma deref_store_eq p e e' m :
  deref p m = Some e → deref p (store p e' m) = Some e'.
Proof.
  intros H%deref_lt. unfold deref, store; simpl.
  by rewrite list_lookup_insert_eq.
Qed.

Lemma deref_store_ne p q e' m : p ≠ q → deref p (store q e' m) = deref p m.
Proof.
  intros Hne. unfold deref, store; simpl. by rewrite list_lookup_insert_ne.
Qed.

Lemma deref_install_old p i e e0 m :
  deref p m = Some e0 → deref p (install i e m) = Some e0.
Proof.
  intros H. pose proof (deref_lt _ _ _ H). apply deref_Some in H.
  unfold deref, install; simpl. rewrite lookup_app_l by done. by rewrite H.
Qed.

Lemma deref_install_new i e m : deref (length (heap m)) (install i e m) = Some e.
Proof.
  unfold deref, install; simpl.
  rewrite lookup_app_r by lia. by rewrite Nat.sub_diag.
Qed.

Lemma owned_Some m i p e :
  elements m !! i = Some (Some p) → deref p m = Some e → owned m i = Some e.
Proof. intros Hi Hp. unfold owned. by rewrite Hi. Qed.

Lemma owned_None m i : elements m !! i = Some None → owned m i = None.
Proof. intros Hi. unfold owned. by rewrite Hi. Qed.

Lemma inv_slot m i :
  inv m → (i < Capacity)%nat →
  elements m !! i = Some None ∨
  ∃ p e, elements m !! i = Some (Some p) ∧ deref p m = Some e ∧
         cardinality e = Z.of_nat i ∧ length (words e) = Z.to_nat nwords.
Proof.
  intros Hinv Hi.
  destruct (elements m !! i) as [[p|]|] eqn:Hs.
  - right. destruct (inv_owned m Hinv i p Hs) as (e & ? & ? & ?). eauto 10.
  - by left.
  - apply lookup_ge_None in Hs. rewrite (inv_length m Hinv) in Hs. lia.
Qed.

Lemma bucket_words_length m i :
  inv m → length (bucket_words m i) = Z.to_nat nwords.
Proof.
  intros Hinv. unfold bucket_words, owned.
  destruct (elements m !! i) as [[p|]|] eqn:Hs; simpl;
    try apply length_replicate.
  destruct (inv_owned m Hinv i p Hs) as (e & -> & _ & Hlen). done.
Qed.

(** writing through the pointer of slot [k] changes bucket [k] only *)
Lemma owned_store m k q e e' j :
  inv m → elements m !! k = Some (Some q) → deref q m = Some e →
  owned (store q e' m) j = if decide (j = k) then Some e' else owned m j.
Proof.
  intros Hinv Hk Hq. unfold owned at 1. simpl.
  destruct (decide (j = k)) as [->|Hne].
  - rewrite Hk. simpl. by eapply deref_store_eq.
  - unfold owned. destruct (elements m !! j) as [[p|]|] eqn:Hj; simpl; try done.
    apply deref_store_ne. intros ->.
    by pose proof (inv_alias m Hinv j k q Hj Hk).
Qed.

Lemma inv_store m k q e e' :
  inv m → elements m !! k = Some (Some q) → deref q m = Some e →
  cardinality e' = Z.of_nat k → length (words e') = Z.to_nat nwords →
  inv (store q e' m).
Proof.
  intros Hinv Hk Hq Hc Hl. split; simpl.
  - apply Hinv.
  - intros i p Hi. destruct (decide (p = q)) as [->|Hne].
    + pose proof (inv_alias m Hinv i k q Hi Hk) as ->.
      exists e'. split; [by eapply deref_store_eq | done].
    + rewrite deref_store_ne by done. by apply (inv_owned m Hinv).
  - apply Hinv.
Qed.

(** installing a new object in the empty slot [k] changes bucket [k] only *)
Lemma owned_install m k e j :
  inv m → elements m !! k = Some None →
  owned (install k e m) j = if decide (j = k) then Some e else owned m j.
Proof.
  intros Hinv Hk. unfold owned at 1. simpl.
  assert (k < length (elements m))%nat by (by eapply lookup_lt_Some).
  destruct (decide (j = k)) as [->|Hne].
  - rewrite list_lookup_insert_eq by done. simpl. apply deref_install_new.
  - rewrite list_lookup_insert_ne by done. unfold owned.
    destruct (elements m !! j) as [[p|]|] eqn:Hj; simpl; try done.
    destruct (inv_owned m Hinv j p Hj) as (e0 & He0 & _).
    rewrite He0. by eapply deref_install_old.
Qed.

Lemma inv_install m k e :
  inv m → elements m !! k = Some None →
  cardinality e = Z.of_nat k → length (words e) = Z.to_nat nwords →
  inv (install k e m).
Proof.
  intros Hinv Hk Hc Hl.
  assert (k < length (elements m))%nat as Hlt by (by eapply lookup_lt_Some).
  assert (∀ i p, i ≠ k → <[k := Some (length (heap m))]> (elements m) !! i
                           = Some (Some p) →
                 elements m !! i = Some (Some p) ∧ (p < length (heap m))%nat)
    as Hold.
  { intros i p Hne Hi. rewrite list_lookup_insert_ne in Hi by done.
    split; [done|].
    destruct (inv_owned m Hinv i p Hi) as (e0 & He0 & _). by eapply deref_lt. }
  assert (∀ p, <[k := Some (length (heap m))]> (elements m) !! k
               = Some (Some p) → p = length (heap m)) as Hnew.
  { intros p Hp. rewrite list_lookup_insert_eq in Hp by done. congruence. }
  split; simpl.
  - rewrite length_insert. apply Hinv.
  - intros i p Hi. destruct (decide (i = k)) as [->|Hne].
    + apply Hnew in Hi as ->. exists e. split; [apply deref_install_new | done].
    + destruct (Hold i p Hne Hi) as [Hi' _].
      destruct (inv_owned m Hinv i p Hi') as (e0 & He0 & ? & ?).
      exists e0. split; [by eapply deref_install_old | done].
  - intros i j p Hi Hj.
    destruct (decide (i = k)) as [->|Hik], (decide (j = k)) as [->|Hjk];
      try done.
    + apply Hnew in Hi as ->. destruct (Hold j _ Hjk Hj). lia.
    + apply Hnew in Hj as ->. destruct (Hold i _ Hik Hi). lia.
    + destruct (Hold i p Hik Hi), (Hold j p Hjk Hj).
      by eapply (inv_alias m Hinv).
Qed.

Lemma inv_init h out : inv (init h out).
Proof.
  split; simpl.
  - apply length_replicate.
  - intros i p [? _]%lookup_replicate. done.
  - intros i j p [? _]%lookup_replicate. done.
Qed.

End representation.

(** * What the calls do to a state that satisfies the invariant *)

Section operations.

Context {T : template_args}.
Hypothesis Hwf : wf_args.

Lemma MaxTries_S : ∃ n, MaxTries = S n.
Proof.
  destruct Hwf as (_ & _ & _ & Hm & _). destruct MaxTries; [lia | eauto].
Qed.

Lemma bit_word_update f g pos m m' x :
  (∀ w o k, 0 ≤ o < WordBits → 0 ≤ k < WordBits →
            Z.testbit (f w o) k = g (Z.testbit w k) (k =? o)) →
  (∀ b, g b false = b) →
  inv m → valid_pos pos → valid_pos x →
  (∀ j, bucket_words m' j = word_update f pos m j) →
  bit m' x = g (bit m x) (bool_decide (x = pos)).
Proof.
  intros Hf Hg Hinv Hpos Hx Hm'.
  pose proof (relocate_inj Hwf x pos Hx Hpos) as Hinj.
  unfold bit. rewrite !(relocate_valid Hwf) in * by done.
  rewrite Hm'. unfold word_update. rewrite (relocate_valid Hwf) by done.
  pose proof (valid_bucket Hwf _ Hpos). pose proof (valid_bucket Hwf _ Hx).
  pose proof (valid_index Hwf _ Hpos). pose proof (valid_index Hwf _ Hx).
  pose proof (valid_offset Hwf _ Hpos). pose proof (valid_offset Hwf _ Hx).
  case_decide as Hb.
  - apply Z2Nat.inj in Hb; [|lia..]. rewrite Hb in *.
    destruct (decide (Z.to_nat (x mod 2 ^ BitsetWidth / WordBits)
                      = Z.to_nat (pos mod 2 ^ BitsetWidth / WordBits)))
      as [Hi|Hi].
    + rewrite Hi. apply Z2Nat.inj in Hi; [|lia..].
      rewrite list_lookup_insert_eq
        by (rewrite bucket_words_length by done; lia).
      simpl. rewrite Hf by done. f_equal.
      destruct (Z.eqb_spec ((x mod 2 ^ BitsetWidth) mod WordBits)
                           ((pos mod 2 ^ BitsetWidth) mod WordBits)) as [Ho|Ho].
      * rewrite bool_decide_eq_true_2; [done|]. apply Hinj. congruence.
      * rewrite bool_decide_eq_false_2; [done|]. congruence.
    + rewrite list_lookup_insert_ne by done.
      rewrite bool_decide_eq_false_2; [by rewrite Hg|]. congruence.
  - rewrite bool_decide_eq_false_2; [by rewrite Hg|]. congruence.
Qed.


(** the slot of a valid position, as the invariant describes it *)
Lemma valid_slot pos m :
  inv m → valid_pos pos →
  let k := Z.to_nat (pos / 2 ^ BitsetWidth) in
  load (pos / 2 ^ BitsetWidth) m = Some None ∧ owned m k = None ∨
  ∃ q e, load (pos / 2 ^ BitsetWidth) m = Some (Some q) ∧
         elements m !! k = Some (Some q) ∧
         deref q m = Some e ∧ owned m k = Some e ∧
         cardinality e = pos / 2 ^ BitsetWidth ∧
         length (words e) = Z.to_nat nwords.
Proof.
  intros Hinv Hpos k. pose proof (valid_bucket Hwf _ Hpos) as Hb.
  destruct (inv_slot m k Hinv) as [Hk | (q & e & Hk & Hq & Hc & Hl)];
    [lia | left | right].
  - split; [done | by apply owned_None].
  - exists q, e. repeat split; try done.
    + by eapply owned_Some.
    + rewrite Hc. unfold k. lia.
Qed.

Lemma set_spec spurious pos m r :
  inv m → valid_pos pos → set spurious pos m = Some r →
  ∃ m', r = (success, m') ∧ inv m' ∧ stdout m' = stdout m ∧
        ∀ j, bucket_words m' j = word_update or_bit pos m j.
Proof.
  intros Hinv Hpos. unfold set, word_update.
  rewrite (relocate_valid Hwf) by done.
  destruct MaxTries_S as [n ->].
  pose proof (valid_bucket Hwf _ Hpos) as Hb.
  pose proof (valid_index Hwf _ Hpos) as Hi.
  pose proof (valid_offset Hwf _ Hpos) as Ho.
  pose proof (valid_slot pos m Hinv Hpos) as Hslot. simpl in Hslot.
  set (b := pos / 2 ^ BitsetWidth) in *.
  set (i := pos mod 2 ^ BitsetWidth / WordBits) in *.
  set (o := (pos mod 2 ^ BitsetWidth) mod WordBits) in *.
  destruct Hslot as [[Hld Hown] | (q & e & Hld & Hk & Hq & Hown & Hc & Hl)].
  - (* empty slot: allocate and install *)
    simpl. rewrite Hld. simpl.
    unfold BitSetElement_new.
    assert ((o <=? to_size_t (WordBits - 1)) = true) as ->.
    { apply Z.leb_le. unfold to_size_t.
      destruct (WordBits_cases Hwf) as [HW | [HW | HW]]; rewrite HW in *;
        rewrite Z.mod_small; lia. }
    unfold fetch_or. rewrite lookup_replicate_2 by lia. simpl.
    unfold compare_exchange_weak, load in *. simpl. rewrite Hld. simpl.
    destruct spurious; simpl; [done|].
    intros [= <-]. eexists. split; [done|].
    split; [|split; [done|]].
    + apply inv_install; simpl; try done; [lia|].
      by rewrite length_insert, length_replicate.
    + intros j. unfold bucket_words at 1.
      fold (install (Z.to_nat b)
              (mkBitSetElement b
                 (<[Z.to_nat i := Z.lor 0 (to_word (int_shl 1 o))]>
                    (replicate (Z.to_nat nwords) 0))) m).
      rewrite owned_install by done.
      case_decide as Hj; [|done]. subst j. simpl.
      unfold bucket_words. rewrite Hown.
      by rewrite lookup_replicate_2 by lia.
  - (* occupied slot, with the tag of this bucket *)
    simpl. rewrite Hld. simpl. rewrite Hq. simpl.
    rewrite Hc, Z.eqb_refl.
    unfold BitSetElement_set, fetch_or.
    destruct (lookup_lt_is_Some_2 (words e) (Z.to_nat i)) as [w Hw]; [lia|].
    rewrite Hw. simpl. intros [= <-]. eexists. split; [done|].
    split; [|split; [done|]].
    + eapply inv_store; simpl; try done; [lia|].
      by rewrite length_insert.
    + intros j. unfold bucket_words at 1.
      rewrite (owned_store m (Z.to_nat b) q e) by done.
      case_decide as Hj; [|done]. subst j. simpl.
      unfold bucket_words. by rewrite Hown, Hw.
Qed.

Lemma set_returns pos m : inv m → valid_pos pos → is_Some (set false pos m).
Proof.
  intros Hinv Hpos. unfold set.
  rewrite (relocate_valid Hwf) by done.
  destruct MaxTries_S as [n ->].
  pose proof (valid_bucket Hwf _ Hpos) as Hb.
  pose proof (valid_index Hwf _ Hpos) as Hi.
  pose proof (valid_offset Hwf _ Hpos) as Ho.
  pose proof (valid_slot pos m Hinv Hpos) as Hslot. simpl in Hslot.
  destruct Hslot as [[Hld Hown] | (q & e & Hld & Hk & Hq & Hown & Hc & Hl)].
  - simpl. rewrite Hld. simpl. unfold BitSetElement_new.
    destruct (_ <=? _); unfold fetch_or;
      rewrite ?lookup_replicate_2 by lia; simpl;
      unfold compare_exchange_weak, load in *; simpl; rewrite Hld; simpl; eauto.
  - simpl. rewrite Hld. simpl. rewrite Hq. simpl. rewrite Hc, Z.eqb_refl.
    unfold BitSetElement_set, fetch_or.
    destruct (lookup_lt_is_Some_2 (words e)
                (Z.to_nat (pos mod 2 ^ BitsetWidth / WordBits))) as [w Hw]; [lia|].
    rewrite Hw. simpl. eauto.
Qed.

Lemma reset_spec pos m :
  inv m → valid_pos pos →
  ∃ m', reset pos m = Some (success, m') ∧ inv m' ∧ stdout m' = stdout m ∧
        ∀ j, bucket_words m' j = word_update and_not_bit pos m j.
Proof.
  intros Hinv Hpos. unfold reset, word_update.
  rewrite (relocate_valid Hwf) by done.
  destruct MaxTries_S as [n ->].
  pose proof (valid_bucket Hwf _ Hpos) as Hb.
  pose proof (valid_index Hwf _ Hpos) as Hi.
  pose proof (valid_offset Hwf _ Hpos) as Ho.
  pose proof (valid_slot pos m Hinv Hpos) as Hslot. simpl in Hslot.
  set (b := pos / 2 ^ BitsetWidth) in *.
  set (i := pos mod 2 ^ BitsetWidth / WordBits) in *.
  set (o := (pos mod 2 ^ BitsetWidth) mod WordBits) in *.
  destruct Hslot as [[Hld Hown] | (q & e & Hld & Hk & Hq & Hown & Hc & Hl)].
  - (* empty slot: nothing to do, the bit is 0 already *)
    simpl. rewrite Hld. simpl. exists m. repeat split; try done; try apply Hinv.
    intros j. case_decide as Hj; [|done]. subst j.
    unfold bucket_words. rewrite Hown.
    rewrite lookup_replicate_2 by lia. simpl.
    unfold and_not_bit. rewrite Z.land_0_l.
    apply list_eq. intros k. destruct (decide (k = Z.to_nat i)) as [->|Hne].
    + rewrite list_lookup_insert_eq by (rewrite length_replicate; lia).
      apply lookup_replicate_2. lia.
    + by rewrite list_lookup_insert_ne.
  - simpl. rewrite Hld. simpl. rewrite Hq. simpl.
    rewrite Hc, Z.eqb_refl.
    unfold BitSetElement_reset, fetch_and.
    destruct (lookup_lt_is_Some_2 (words e) (Z.to_nat i)) as [w Hw]; [lia|].
    rewrite Hw. simpl. eexists. split; [done|].
    split; [|split; [done|]].
    + eapply inv_store; simpl; try done; [lia|].
      by rewrite length_insert.
    + intros j. unfold bucket_words at 1.
      rewrite (owned_store m (Z.to_nat b) q e) by done.
      case_decide as Hj; [|done]. subst j. simpl.
      unfold bucket_words. by rewrite Hown, Hw.
Qed.

Lemma test_spec pos m :
  inv m → valid_pos pos →
  test pos m = Some (if bit m pos then yes else no, m).
Proof.
  intros Hinv Hpos. unfold test, bit.
  rewrite (relocate_valid Hwf) by done.
  destruct MaxTries_S as [n ->].
  pose proof (valid_bucket Hwf _ Hpos) as Hb.
  pose proof (valid_index Hwf _ Hpos) as Hi.
  pose proof (valid_offset Hwf _ Hpos) as Ho.
  pose proof (valid_slot pos m Hinv Hpos) as Hslot. simpl in Hslot.
  set (b := pos / 2 ^ BitsetWidth) in *.
  set (i := pos mod 2 ^ BitsetWidth / WordBits) in *.
  set (o := (pos mod 2 ^ BitsetWidth) mod WordBits) in *.
  unfold bucket_words.
  destruct Hslot as [[Hld Hown] | (q & e & Hld & Hk & Hq & Hown & Hc & Hl)];
    rewrite Hown.
  - simpl. rewrite Hld. simpl.
    rewrite lookup_replicate_2 by lia. simpl. by rewrite Z.bits_0.
  - simpl. rewrite Hld. simpl. rewrite Hq. simpl.
    rewrite Hc, Z.eqb_refl. unfold BitSetElement_test.
    destruct (lookup_lt_is_Some_2 (words e) (Z.to_nat i)) as [w Hw]; [lia|].
    rewrite Hw. simpl. by rewrite (test_bit Hwf).
Qed.

Lemma for_loop_inv {St} (body : nat → St → option St) (P : nat → St → Prop)
    n i s :
  P i s →
  (∀ k t, (i ≤ k < i + n)%nat → P k t → ∃ t', body k t = Some t' ∧ P (S k) t') →
  ∃ s', for_loop body i n s = Some s' ∧ P (i + n)%nat s'.
Proof.
  revert i s. induction n as [|n IH]; intros i s Hs Hbody; simpl.
  - exists s. by rewrite Nat.add_0_r.
  - destruct (Hbody i s) as (t & -> & Ht); [lia | done |]. simpl.
    destruct (IH (S i) t Ht) as (s' & Hs' & HP).
    { intros k u Hk. apply Hbody. lia. }
    exists s'. split; [done|]. by rewrite Nat.add_succ_r.
Qed.

Lemma clear_words_spec ws :
  length ws = Z.to_nat nwords →
  clear_words ws = Some (replicate (Z.to_nat nwords) 0).
Proof.
  intros Hlen. unfold clear_words.
  destruct (for_loop_inv (λ i, store_word i 0)
              (λ k ws', length ws' = Z.to_nat nwords ∧
                        ∀ j, (j < k)%nat → ws' !! j = Some 0)
              (Z.to_nat nwords) 0%nat ws) as (ws' & -> & Hl & Hz).
  - split; [done | lia].
  - intros k t Hk [Hl Hz]. unfold store_word.
    destruct (lookup_lt_is_Some_2 t k) as [w ->]; [lia|]. simpl.
    eexists. split; [done|]. split; [by rewrite length_insert|].
    intros j Hj. unfold to_word. rewrite Zmod_0_l.
    destruct (decide (j = k)) as [->|Hne].
    + apply list_lookup_insert_eq. lia.
    + rewrite list_lookup_insert_ne by done. apply Hz. lia.
  - f_equal. apply list_eq. intros j. simpl in Hz.
    destruct (decide (j < Z.to_nat nwords)%nat).
    + rewrite Hz by done. symmetry. by apply lookup_replicate_2.
    + rewrite !lookup_ge_None_2; [done | rewrite length_replicate; lia | lia].
Qed.

Lemma reset_all_spec m :
  inv m →
  ∃ m', reset_all m = Some (success, m') ∧ inv m' ∧ stdout m' = stdout m ∧
        ∀ j, bucket_words m' j = replicate (Z.to_nat nwords) 0.
Proof.
  intros Hinv. unfold reset_all.
  destruct (for_loop_inv reset_slot
              (λ k m', inv m' ∧ stdout m' = stdout m ∧
                       ∀ j, bucket_words m' j =
                            if decide (j < k)%nat
                            then replicate (Z.to_nat nwords) 0
                            else bucket_words m j)
              Capacity 0%nat m) as (m' & -> & Hinv' & Hout & Hw).
  - repeat split; try done; apply Hinv.
  - intros k t Hk (Ht & Hout & Hw). unfold reset_slot.
    destruct (inv_slot t k Ht) as [Hs | (p & e & Hs & Hp & Hc & Hl)];
      [lia | |]; rewrite Hs; simpl.
    + exists t. repeat split; try done; try apply Ht. intros j.
      destruct (decide (j = k)) as [->|Hne].
      * rewrite decide_True by lia.
        unfold bucket_words. by rewrite (owned_None t k).
      * rewrite Hw. repeat case_decide; done || lia.
    + rewrite Hp. simpl. rewrite clear_words_spec by done. simpl.
      eexists. split; [done|]. split; [|split; [done|]].
      * eapply inv_store; simpl; try done. by rewrite length_replicate.
      * intros j. unfold bucket_words at 1.
        rewrite (owned_store t k p e) by done.
        destruct (decide (j = k)) as [->|Hne].
        -- by rewrite decide_True by lia.
        -- fold (bucket_words t j). rewrite Hw.
           repeat case_decide; done || lia.
  - simpl. eexists. split; [done|]. split; [done|]. split; [done|].
    intros j. rewrite Hw. case_decide as Hj; [done|].
    unfold bucket_words.
    assert (owned m j = None) as ->; [|done].
    unfold owned. rewrite lookup_ge_None_2; [done|].
    rewrite (inv_length m Hinv). lia.
Qed.

Lemma bit_zero m x :
  (∀ j, bucket_words m j = replicate (Z.to_nat nwords) 0) → bit m x = false.
Proof.
  intros Hz. unfold bit. destruct (relocate x) as [[b i] o]. rewrite Hz.
  destruct (replicate _ _ !! _) as [w|] eqn:Hw; simpl; [|apply Z.bits_0].
  apply lookup_replicate in Hw as [-> _]. apply Z.bits_0.
Qed.

End operations.

(** * Runs *)

Section runs.

Context {T : template_args}.
Hypothesis Hwf : wf_args.

Lemma exec_spec c m st m' :
  inv m → valid_call c → exec c m = Some (st, m') →
  inv m' ∧ stdout m' = stdout m ∧
  ∀ x, valid_pos x → bit m' x = bit_after c (bit m x) x.
Proof.
  intros Hinv Hc Hex. destruct c as [sp pos| |pos|pos]; simpl in *.
  - destruct (set_spec Hwf sp pos m _ Hinv Hc Hex) as (m1 & Heq & ? & ? & Hw).
    injection Heq as -> ->.
    split; [done|]. split; [done|]. intros x Hx.
    apply (bit_word_update Hwf or_bit orb pos m m1 x); try done.
    + intros. by apply fetch_or_bit.
    + apply orb_false_r.
  - destruct (reset_all_spec m Hinv) as (m1 & Hr & ? & ? & Hw).
    rewrite Hr in Hex. injection Hex as <- <-.
    split; [done|]. split; [done|]. intros x _. by apply bit_zero.
  - destruct (reset_spec Hwf pos m Hinv Hc) as (m1 & Hr & ? & ? & Hw).
    rewrite Hr in Hex. injection Hex as <- <-.
    split; [done|]. split; [done|]. intros x Hx.
    apply (bit_word_update Hwf and_not_bit
             (λ b c, b && negb c) pos m m1 x); try done.
    + intros. by apply fetch_and_bit.
    + apply andb_true_r.
  - rewrite (test_spec Hwf) in Hex by done. injection Hex as _ <-. done.
Qed.

Lemma reachable_inv m : reachable m → inv m.
Proof.
  induction 1 as [h out | m c st m' _ IH Hc Hex]; [apply inv_init|].
  by destruct (exec_spec c m st m' IH Hc Hex).
Qed.

Lemma run_spec cs m m' :
  inv m → Forall valid_call cs → run cs m = Some m' →
  inv m' ∧ stdout m' = stdout m ∧
  ∀ x, valid_pos x → bit m' x = foldl (λ b c, bit_after c b x) (bit m x) cs.
Proof.
  intros Hinv Hcs. revert m Hinv.
  induction Hcs as [|c cs Hc _ IH]; intros m Hinv; simpl.
  - intros [= <-]. done.
  - destruct (exec c m) as [[st m1]|] eqn:Hex; [simpl | done].
    destruct (exec_spec c m st m1 Hinv Hc Hex) as (Hinv1 & Hout1 & Hbit1).
    intros Hrun. destruct (IH m1 Hinv1 Hrun) as (? & ? & Hbit).
    split; [done|]. split; [congruence|].
    intros x Hx. by rewrite Hbit, Hbit1.
Qed.

(** a bit that is set stays set as long as no call clears it *)
Lemma foldl_bit_after_true pos cs :
  Forall (λ c, ¬ clears pos c) cs →
  foldl (λ b c, bit_after c b pos) true cs = true.
Proof.
  induction 1 as [|c cs Hc _ IH]; [done|]. simpl.
  assert (bit_after c true pos = true) as ->; [|done].
  destruct c as [sp x| |x|x]; simpl; try done.
  - exfalso. apply Hc. by right.
  - rewrite bool_decide_eq_false_2; [done|]. intros ->. apply Hc. by left.
Qed.

End runs.

(** * Slots are written once *)

Section slots.

Context {T : template_args}.

Lemma slots_kept_eq m m' : elements m' = elements m → slots_kept m m'.
Proof. intros Heq i p. by rewrite Heq. Qed.

Lemma slots_kept_trans m1 m2 m3 :
  slots_kept m1 m2 → slots_kept m2 m3 → slots_kept m1 m3.
Proof. intros H12 H23 i p Hi. by apply H23, H12. Qed.

(** the only write to a slot: a successful compare-exchange that expected
    the null pointer *)
Lemma compare_exchange_weak_kept spurious bucket desired m ok elt' m' :
  compare_exchange_weak spurious bucket None desired m = Some (ok, elt', m') →
  slots_kept m m'.
Proof.
  unfold compare_exchange_weak, load.
  destruct (elements m !! Z.to_nat bucket) as [cur|] eqn:Hcur; [simpl | done].
  destruct (bool_decide (cur = None)) eqn:Hd; simpl.
  - apply bool_decide_eq_true in Hd as ->.
    destruct spurious; simpl; intros [= <- <- <-]; [by apply slots_kept_eq|].
    intros i p Hi. simpl.
    destruct (decide (i = Z.to_nat bucket)) as [->|Hne]; [congruence|].
    by rewrite list_lookup_insert_ne.
  - intros [= <- <- <-]. by apply slots_kept_eq.
Qed.

Lemma set_loop_kept left spurious card tries bucket index offset newelt m st m' :
  set_loop left spurious card tries bucket index offset newelt m
  = Some (st, m') →
  slots_kept m m'.
Proof.
  revert tries bucket index offset newelt m.
  induction left as [|left IH]; intros tries bucket index offset newelt m; simpl.
  - intros [= <- <-]. destruct newelt; by apply slots_kept_eq.
  - destruct (load bucket m) as [[q|]|]; simpl; [| |done].
    + destruct (deref q m) as [e|]; simpl; [|done].
      destruct (cardinality e =? card).
      * destruct (BitSetElement_set e index offset); simpl; [|done].
        intros [= <- <-]. by apply slots_kept_eq.
      * destruct (relocate (retry_pos bucket)) as [[b' i'] o'].
        intros Hrec%IH. eapply slots_kept_trans; [|done]. by apply slots_kept_eq.
    + destruct (match newelt with Some _ => _ | None => _ end)
        as [[p m1]|] eqn:Hnew; simpl; [|done].
      assert (elements m1 = elements m) as Hm1.
      { destruct newelt as [p'|]; simpl in Hnew.
        - destruct (deref p' m); simpl in Hnew; [|done].
          destruct (BitSetElement_set _ _ _); simpl in Hnew; [|done].
          by injection Hnew as <- <-.
        - destruct (BitSetElement_new _ _ _); simpl in Hnew; [|done].
          by injection Hnew as <- <-. }
      destruct (compare_exchange_weak _ _ _ _ _) as [[[ok elt'] m2]|] eqn:Hcas;
        simpl; [|done].
      apply compare_exchange_weak_kept in Hcas.
      assert (slots_kept m m2) as Hm2.
      { eapply slots_kept_trans; [|done]. by apply slots_kept_eq. }
      destruct ok; [by intros [= <- <-]|].
      destruct elt' as [q|]; simpl; [|done].
      destruct (deref q m2) as [e|]; simpl; [|done].
      destruct (cardinality e =? card).
      * destruct (fetch_or _ _ _); simpl; [|done].
        intros [= <- <-]. eapply slots_kept_trans; [done|].
        by apply slots_kept_eq.
      * destruct (deref p m2) as [n|]; simpl; [|done].
        destruct (BitSetElement_reset _ _ _); simpl; [|done].
        destruct (relocate (retry_pos bucket)) as [[b' i'] o'].
        intros Hrec%IH. eapply slots_kept_trans; [done|].
        eapply slots_kept_trans; [|done]. by apply slots_kept_eq.
Qed.

Lemma reset_loop_kept left card tries bucket index offset m st m' :
  reset_loop left card tries bucket index offset m = Some (st, m') →
  slots_kept m m'.
Proof.
  revert tries bucket index offset m.
  induction left as [|left IH]; intros tries bucket index offset m; simpl.
  - intros [= <- <-]. by apply slots_kept_eq.
  - destruct (load bucket m) as [[q|]|]; simpl; [| |done].
    + destruct (deref q m) as [e|]; simpl; [|done].
      destruct (cardinality e =? card).
      * destruct (BitSetElement_reset e index offset); simpl; [|done].
        intros [= <- <-]. by apply slots_kept_eq.
      * destruct (relocate (retry_pos bucket)) as [[b' i'] o'].
        intros Hrec%IH. eapply slots_kept_trans; [|done]. by apply slots_kept_eq.
    + intros [= <- <-]. by apply slots_kept_eq.
Qed.

Lemma test_loop_kept left card tries bucket index offset m st m' :
  test_loop left card tries bucket index offset m = Some (st, m') →
  slots_kept m m'.
Proof.
  revert tries bucket index offset m.
  induction left as [|left IH]; intros tries bucket index offset m; simpl.
  - intros [= <- <-]. by apply slots_kept_eq.
  - destruct (load bucket m) as [[q|]|]; simpl; [| |done].
    + destruct (deref q m) as [e|]; simpl; [|done].
      destruct (cardinality e =? card).
      * destruct (BitSetElement_test e index offset); simpl; [|done].
        intros [= <- <-]. by apply slots_kept_eq.
      * destruct (relocate (retry_pos bucket)) as [[b' i'] o'].
        intros Hrec%IH. eapply slots_kept_trans; [|done]. by apply slots_kept_eq.
    + intros [= <- <-]. by apply slots_kept_eq.
Qed.

Lemma for_loop_elements (body : nat → machine → option machine) n i m m' :
  (∀ k t t', body k t = Some t' → elements t' = elements t) →
  for_loop body i n m = Some m' → elements m' = elements m.
Proof.
  intros Hbody. revert i m. induction n as [|n IH]; intros i m; simpl.
  - by intros [= <-].
  - destruct (body i m) as [t|] eqn:Ht; simpl; [|done].
    intros ->%IH. by eapply Hbody.
Qed.

Lemma reset_all_kept m st m' : reset_all m = Some (st, m') → slots_kept m m'.
Proof.
  unfold reset_all.
  destruct (for_loop reset_slot 0 Capacity m) as [m1|] eqn:Hloop; simpl; [|done].
  intros [= <- <-]. apply slots_kept_eq.
  eapply for_loop_elements; [|done].
  intros k t t'. unfold reset_slot.
  destruct (elements t !! k) as [[p|]|]; simpl; [| by intros [= <-] | done].
  destruct (deref p t); simpl; [|done].
  destruct (clear_words _); simpl; [|done]. by intros [= <-].
Qed.

Lemma exec_kept c m st m' : exec c m = Some (st, m') → slots_kept m m'.
Proof.
  destruct c as [sp pos| |pos|pos]; simpl.
  - unfold set. destruct (relocate pos) as [[b i] o]. apply set_loop_kept.
  - apply reset_all_kept.
  - unfold reset. destruct (relocate pos) as [[b i] o]. apply reset_loop_kept.
  - unfold test. destruct (relocate pos) as [[b i] o]. apply test_loop_kept.
Qed.

End slots.

(** * Properties of the bit-set *)

Section properties.

Context {T : template_args}.

Lemma run_kept cs m m' : run cs m = Some m' → slots_kept m m'.
Proof.
  revert m. induction cs as [|c cs IH]; intros m; simpl.
  - intros [= <-]. by apply slots_kept_eq.
  - destruct (exec c m) as [[st m1]|] eqn:Hex; simpl; [|done].
    intros Hrun. eapply slots_kept_trans; [by eapply exec_kept | by apply IH].
Qed.

(** C1: for every valid position, once [set(pos)] has returned success,
    [test(pos)] returns yes after any further calls at valid positions,
    none of them [reset(pos)] or the bulk [reset()]. *)
Theorem test_yes_after_set m spurious pos m1 cs m2 :
  wf_args → reachable m → valid_pos pos →
  set spurious pos m = Some (success, m1) →
  Forall valid_call cs → Forall (λ c, ¬ clears pos c) cs →
  run cs m1 = Some m2 →
  test pos m2 = Some (yes, m2).
Proof.
  intros Hwf Hm Hpos Hset Hcs Hclr Hrun.
  apply (reachable_inv Hwf) in Hm.
  destruct (exec_spec Hwf (call_set spurious pos) m success m1 Hm Hpos Hset)
    as (Hm1 & _ & Hbit1).
  destruct (run_spec Hwf cs m1 m2 Hm1 Hcs Hrun) as (Hm2 & _ & Hbit2).
  rewrite (test_spec Hwf) by done.
  rewrite Hbit2, Hbit1 by done. simpl.
  rewrite bool_decide_eq_true_2, orb_true_r by done.
  by rewrite foldl_bit_after_true.
Qed.

(** C2: for every valid position, [reset(pos)] returns, and right after it
    [test(pos)] returns no, whatever the slot of [pos] held before: nothing,
    or a bucket with the bit set. *)
Theorem test_no_after_reset m pos :
  wf_args → reachable m → valid_pos pos →
  ∃ m', reset pos m = Some (success, m') ∧ test pos m' = Some (no, m').
Proof.
  intros Hwf Hm Hpos. apply (reachable_inv Hwf) in Hm.
  destruct (reset_spec Hwf pos m Hm Hpos) as (m' & Hr & _).
  exists m'. split; [done|].
  destruct (exec_spec Hwf (call_reset pos) m success m' Hm Hpos Hr)
    as (Hm' & _ & Hbit).
  rewrite (test_spec Hwf) by done. rewrite Hbit by done. simpl.
  by rewrite bool_decide_eq_true_2, andb_false_r.
Qed.

(** C3: the bulk [reset()] returns success, and after it [test(pos)] returns
    no for every valid position. *)
Theorem test_no_after_bulk_reset m :
  wf_args → reachable m →
  ∃ m', reset_all m = Some (success, m') ∧
        ∀ pos, valid_pos pos → test pos m' = Some (no, m').
Proof.
  intros Hwf Hm. apply (reachable_inv Hwf) in Hm.
  destruct (reset_all_spec m Hm) as (m' & Hr & Hm' & _ & Hw).
  exists m'. split; [done|]. intros pos Hpos.
  rewrite (test_spec Hwf) by done. by rewrite bit_zero.
Qed.

(** C4: in every reachable state, a slot that is not empty points to a live
    bucket object whose [cardinality] is the index of the slot. *)
Theorem tag_is_slot_index m i p :
  wf_args → reachable m →
  elements m !! i = Some (Some p) →
  ∃ e, deref p m = Some e ∧ cardinality e = Z.of_nat i.
Proof.
  intros Hwf Hm Hi. apply (reachable_inv Hwf) in Hm.
  destruct (inv_owned m Hm i p Hi) as (e & ? & ? & _). eauto.
Qed.

(** C5: in a reachable state and at a valid position, the slot is empty or
    its object carries the tag of the bucket, so the first round of each loop
    returns; the mismatch branch, which prints [tries], is never taken.
    [set] does not return failed (it returns success whenever it returns,
    and it returns unless the compare-exchange fails spuriously), and
    [reset(pos)] and [test(pos)] do not return not_found. *)
Theorem mismatch_unreachable m pos :
  wf_args → reachable m → valid_pos pos →
  (∀ bucket index offset, relocate pos = (bucket, index, offset) →
     load bucket m = Some None ∨
     ∃ q e, load bucket m = Some (Some q) ∧ deref q m = Some e ∧
            cardinality e = bucket) ∧
  (∀ spurious st m', set spurious pos m = Some (st, m') →
     st = success ∧ stdout m' = stdout m) ∧
  (∃ m', set false pos m = Some (success, m')) ∧
  (∃ m', reset pos m = Some (success, m') ∧ stdout m' = stdout m) ∧
  (∃ st, test pos m = Some (st, m) ∧ (st = yes ∨ st = no)).
Proof.
  intros Hwf Hm Hpos. apply (reachable_inv Hwf) in Hm.
  split; [|split; [|split; [|split]]].
  - intros bucket index offset. rewrite (relocate_valid Hwf) by done.
    intros [= <- _ _].
    destruct (valid_slot Hwf pos m Hm Hpos)
      as [[? _] | (q & e & ? & _ & ? & _ & ? & _)]; [by left | right; eauto].
  - intros spurious st m' Hset.
    destruct (set_spec Hwf spurious pos m _ Hm Hpos Hset)
      as (m1 & Heq & _ & ? & _).
    by injection Heq as -> ->.
  - destruct (set_returns Hwf pos m Hm Hpos) as [[st m'] Hset].
    destruct (set_spec Hwf false pos m _ Hm Hpos Hset) as (m1 & Heq & _).
    injection Heq as -> ->. eauto.
  - destruct (reset_spec Hwf pos m Hm Hpos) as (m' & ? & _ & ? & _). eauto.
  - rewrite (test_spec Hwf) by done. destruct (bit m pos); eauto.
Qed.

(** C6: when [b << BitsetWidth] overflows neither [size_t], in which it is
    computed, nor [Index], to which it is converted, the retry decomposes it
    into bucket [b] again, with word index 0 and bit offset 0. *)
Theorem retry_same_bucket b :
  0 ≤ BitsetWidth ≤ 30 → 0 ≤ b →
  Z.shiftl b BitsetWidth < 2 ^ 64 →
  Z.shiftl b BitsetWidth < 2 ^ IndexBits →
  retry_pos b = Z.shiftl b BitsetWidth ∧ relocate (retry_pos b) = (b, 0, 0).
Proof.
  intros Hw Hb H64 Hidx.
  assert (0 < 2 ^ BitsetWidth) as Hpow by (apply Z.pow_pos_nonneg; lia).
  assert (0 ≤ Z.shiftl b BitsetWidth) as Hn by (apply Z.shiftl_nonneg; lia).
  assert (retry_pos b = Z.shiftl b BitsetWidth) as Hretry.
  { unfold retry_pos, to_Index, size_t_shl, to_size_t.
    rewrite (Z.mod_small _ (2 ^ 64)) by lia. apply Z.mod_small. lia. }
  split; [done|]. rewrite Hretry. unfold relocate.
  rewrite Z.shiftr_shiftl_l, Z.sub_diag, Z.shiftl_0_r by lia.
  rewrite int_shl_1_small by done.
  replace (2 ^ BitsetWidth - 1) with (Z.ones BitsetWidth)
    by (rewrite Z.ones_equiv; lia).
  rewrite Z.land_ones, Z.shiftl_mul_pow2, Z.mod_mul by lia.
  assert (b < 2 ^ 64).
  { rewrite Z.shiftl_mul_pow2 in H64 by lia. nia. }
  unfold to_size_t. rewrite !Z.mod_small by lia.
  by rewrite Zdiv_0_l, Z.land_0_l.
Qed.

(** C7: over any sequence of calls, a slot that holds an object keeps
    holding that same object: no call empties a slot or puts another object
    in it, so the pointer of a slot changes at most once, from null. *)
Theorem slots_written_once cs m m' i p :
  run cs m = Some m' →
  elements m !! i = Some (Some p) →
  elements m' !! i = Some (Some p).
Proof. intros Hrun. by apply (run_kept cs m m'). Qed.

(** C9: [reset(pos)] on an empty slot returns success and leaves the state
    as it was. *)
Theorem reset_empty_slot m pos bucket index offset :
  (0 < MaxTries)%nat →
  relocate pos = (bucket, index, offset) →
  load bucket m = Some None →
  reset pos m = Some (success, m).
Proof.
  intros Htries Hrel Hload. unfold reset. rewrite Hrel.
  destruct MaxTries as [|n]; [lia|]. simpl. by rewrite Hload.
Qed.

End properties.

(** * The frame of [set] *)

Section frame.

Context {T : template_args}.
Hypothesis Hwf : wf_args.

Lemma bit_init h out x : bit (init h out) x = false.
Proof.
  apply bit_zero. intros j. unfold bucket_words, owned, init. simpl.
  by destruct (replicate Capacity None !! j) as [[p|]|] eqn:Hj;
    [apply lookup_replicate in Hj as [? _]|..].
Qed.

(** [set(pos)] at a valid position returns success unless the
    compare-exchange fails spuriously, and then [test] answers as before
    everywhere but at [pos], where it answers yes *)
Lemma set_test pos m :
  inv m → valid_pos pos →
  ∃ m', set false pos m = Some (success, m') ∧ inv m' ∧
        test pos m' = Some (yes, m') ∧
        ∀ x, valid_pos x → x ≠ pos →
             ∃ st, test x m = Some (st, m) ∧ test x m' = Some (st, m').
Proof.
  intros Hm Hpos.
  destruct (set_returns Hwf pos m Hm Hpos) as [[st m'] Hset].
  destruct (set_spec Hwf false pos m _ Hm Hpos Hset) as (m1 & Heq & _).
  injection Heq as -> <-.
  destruct (exec_spec Hwf (call_set false pos) m success m' Hm Hpos Hset)
    as (Hm' & _ & Hbit). simpl in Hbit.
  exists m'. split; [done|]. split; [done|]. split.
  - rewrite (test_spec Hwf), Hbit by done.
    by rewrite bool_decide_eq_true_2, orb_true_r.
  - intros x Hx Hne. rewrite !(test_spec Hwf), Hbit by done.
    rewrite bool_decide_eq_false_2, orb_false_r by done. eauto.
Qed.

Lemma set_keeps_other_bits spurious pos m st m' x :
  inv m → valid_pos pos → set spurious pos m = Some (st, m') →
  valid_pos x → x ≠ pos →
  ∃ st', test x m = Some (st', m) ∧ test x m' = Some (st', m').
Proof.
  intros Hm Hpos Hset Hx Hne.
  destruct (exec_spec Hwf (call_set spurious pos) m st m' Hm Hpos Hset)
    as (Hm' & _ & Hbit). simpl in Hbit.
  rewrite !(test_spec Hwf), Hbit by done.
  rewrite bool_decide_eq_false_2, orb_false_r by done. eauto.
Qed.

End frame.

Lemma small_args_wf capacity max_tries :
  Z.of_nat capacity < 2 ^ 64 → (0 < max_tries)%nat →
  wf_args (T := small_args capacity max_tries).
Proof.
  intros Hcap Htries. unfold wf_args. simpl.
  split; [lia|]. split; [by left|]. split; [by vm_compute|]. by split.
Qed.

(** C8, the defect: the frame sentence fails for a word type wider than
    [int].  In [atomic_bitset<1, 16, uint64_t>], [set(31)] on a new bit-set
    returns success and stores the word [0xFFFFFFFF80000000]: [1 << 31] is
    the most negative [int], and its conversion to the 64-bit word extends
    the sign.  The bits of the positions 32 to 63, all 0 in the new
    bit-set, are 1 afterwards. *)
Theorem set_wide_word_sets_upper_bits :
  let new := init (T := wide_args) [] [] in
  ∃ m, set (T := wide_args) false 31 new = Some (success, m) ∧
       bucket_words (T := wide_args) m 0 !! 0%nat = Some (2 ^ 64 - 2 ^ 31) ∧
       Forall (λ x, bit (T := wide_args) new x = false ∧
                    bit (T := wide_args) m x = true)
              (seqZ 32 32).
Proof.
  intros new. eexists. split; [by vm_compute|]. split; [by vm_compute|].
  let l := eval vm_compute in (seqZ 32 32) in change (seqZ 32 32) with l.
  repeat (apply List.Forall_cons; [split; by vm_compute|]).
  apply List.Forall_nil.
Qed.

(** X21: for a word type no wider than [int] ([wf_args]: 1, 2 or 4 bytes),
    [set(pos)] changes the answer of [test] at no valid position other than
    [pos].  With 16 bits per bucket and 8-bit words, on a new bit-set:
    after [set(5)], [test(5)] returns yes and [test(6)] returns no, and a
    following [set(16)] changes no bit of bucket 0, the positions 0 to 15. *)
Theorem set_changes_one_bit :
  (∀ (T : template_args) m spurious pos st m' x,
     wf_args → reachable m → valid_pos pos →
     set spurious pos m = Some (st, m') →
     valid_pos x → x ≠ pos →
     ∃ st', test x m = Some (st', m) ∧ test x m' = Some (st', m')) ∧
  (∀ capacity max_tries h out,
     (2 ≤ capacity)%nat → Z.of_nat capacity < 2 ^ 64 → (0 < max_tries)%nat →
     let T := small_args capacity max_tries in
     ∃ m1 m2,
       set false 5 (init h out) = Some (success, m1) ∧
       test 5 m1 = Some (yes, m1) ∧
       test 6 m1 = Some (no, m1) ∧
       set false 16 m1 = Some (success, m2) ∧
       ∀ x, 0 ≤ x < 16 →
            ∃ st', test x m1 = Some (st', m1) ∧ test x m2 = Some (st', m2)).
Proof.
  split.
  - intros T m spurious pos st m' x Hwf Hm. apply (reachable_inv Hwf) in Hm.
    by apply set_keeps_other_bits.
  - intros capacity max_tries h out Hcap Hsz Htries T.
    assert (wf_args (T := T)) as Hwf by (by apply small_args_wf).
    assert (∀ x, 0 ≤ x < 32 → valid_pos x) as Hvalid.
    { intros x Hx. unfold valid_pos. subst T. simpl. lia. }
    destruct (set_test Hwf 5 (init h out)) as (m1 & Hset1 & Hm1 & Hyes & Hfr1);
      [apply inv_init | apply Hvalid; lia |].
    destruct (set_test Hwf 16 m1) as (m2 & Hset2 & Hm2 & _ & Hfr2);
      [done | apply Hvalid; lia |].
    exists m1, m2. split; [done|]. split; [done|]. split; [|split; [done|]].
    + destruct (Hfr1 6) as (st & Hst & ->); [apply Hvalid; lia | lia |].
      rewrite (test_spec Hwf) in Hst by (apply inv_init || (apply Hvalid; lia)).
      rewrite bit_init in Hst. by injection Hst as <-.
    + intros x Hx. apply Hfr2; [apply Hvalid|]; lia.
Qed.

(** * The properties at the example states *)

Lemma demo_args_wf : wf_args (T := demo_args).
Proof.
  unfold wf_args. simpl.
  split; [lia|]. split; [by left|]. split; [by vm_compute|]. split; lia.
Defined.

Lemma demo_valid_pos x : 0 ≤ x < 64 → valid_pos (T := demo_args) x.
Proof. unfold valid_pos. simpl. lia. Defined.

Lemma demo_set5_reachable : reachable (T := demo_args) demo_set5.
Proof.
  apply (reachable_exec (T := demo_args) demo_init (call_set false 5) success).
  - apply reachable_init.
  - apply demo_valid_pos. lia.
  - reflexivity.
Defined.

Lemma test_yes_after_set_witness :
  set (T := demo_args) false 5 demo_init = Some (success, demo_set5) ∧
  run (T := demo_args) demo_calls demo_set5 = Some demo_final ∧
  test (T := demo_args) 5 demo_final = Some (yes, demo_final).
Proof.
  split; [reflexivity|]. split; [reflexivity|].
  apply (test_yes_after_set (T := demo_args) demo_init false 5 demo_set5 demo_calls).
  - apply demo_args_wf.
  - apply reachable_init.
  - apply demo_valid_pos. lia.
  - reflexivity.
  - repeat constructor; apply demo_valid_pos; lia.
  - repeat constructor; intros [H|H]; discriminate H.
  - reflexivity.
Defined.

Lemma test_no_after_reset_witness :
  ∃ m', reset (T := demo_args) 5 demo_set5 = Some (success, m') ∧
        test (T := demo_args) 5 m' = Some (no, m').
Proof.
  apply (test_no_after_reset (T := demo_args) demo_set5 5).
  - apply demo_args_wf.
  - apply demo_set5_reachable.
  - apply demo_valid_pos. lia.
Defined.

Lemma test_no_after_bulk_reset_witness :
  ∃ m', reset_all (T := demo_args) demo_set5 = Some (success, m') ∧
        ∀ pos, valid_pos (T := demo_args) pos →
               test (T := demo_args) pos m' = Some (no, m').
Proof.
  apply (test_no_after_bulk_reset (T := demo_args) demo_set5).
  - apply demo_args_wf.
  - apply demo_set5_reachable.
Defined.

Lemma tag_is_slot_index_witness :
  ∃ e, deref 0%nat demo_set5 = Some e ∧ cardinality e = 0.
Proof.
  apply (tag_is_slot_index (T := demo_args) demo_set5 0%nat 0%nat).
  - apply demo_args_wf.
  - apply demo_set5_reachable.
  - reflexivity.
Defined.

Lemma mismatch_unreachable_witness :
  (∀ spurious st m', set (T := demo_args) spurious 21 demo_set5 = Some (st, m') →
     st = success ∧ stdout m' = stdout demo_set5) ∧
  (∃ m', reset (T := demo_args) 21 demo_set5 = Some (success, m') ∧
         stdout m' = stdout demo_set5) ∧
  (∃ st, test (T := demo_args) 21 demo_set5 = Some (st, demo_set5) ∧
         (st = yes ∨ st = no)).
Proof.
  destruct (mismatch_unreachable (T := demo_args) demo_set5 21)
    as (_ & Hset & _ & Hreset & Htest).
  - apply demo_args_wf.
  - apply demo_set5_reachable.
  - apply demo_valid_pos. lia.
  - split; [exact Hset|]. split; [exact Hreset | exact Htest].
Defined.

Lemma retry_same_bucket_witness :
  retry_pos (T := bench_args) 3 = 196608 ∧
  relocate (T := bench_args) (retry_pos (T := bench_args) 3) = (3, 0, 0).
Proof.
  apply (retry_same_bucket (T := bench_args) 3); simpl; try lia.
  all: reflexivity.
Defined.

Lemma slots_written_once_witness :
  elements demo_final !! 0%nat = Some (Some 0%nat).
Proof.
  apply (slots_written_once (T := demo_args) demo_calls demo_set5 demo_final
           0%nat 0%nat); reflexivity.
Defined.

Lemma set_changes_one_bit_witness :
  (∃ st', test (T := demo_args) 6 demo_init = Some (st', demo_init) ∧
          test (T := demo_args) 6 demo_set5 = Some (st', demo_set5)) ∧
  (∃ m1 m2,
     set (T := demo_args) false 5 demo_init = Some (success, m1) ∧
     test (T := demo_args) 5 m1 = Some (yes, m1) ∧
     test (T := demo_args) 6 m1 = Some (no, m1) ∧
     set (T := demo_args) false 16 m1 = Some (success, m2) ∧
     ∀ x, 0 ≤ x < 16 →
          ∃ st', test (T := demo_args) x m1 = Some (st', m1) ∧
                 test (T := demo_args) x m2 = Some (st', m2)).
Proof.
  destruct set_changes_one_bit as [Hgeneral Hexample]. split.
  - apply (Hgeneral demo_args demo_init false 5 success demo_set5 6).
    + apply demo_args_wf.
    + apply reachable_init.
    + apply demo_valid_pos. lia.
    + reflexivity.
    + apply demo_valid_pos. lia.
    + lia.
  - apply (Hexample 4%nat 32%nat [] []); simpl; lia.
Defined.

Lemma reset_empty_slot_witness :
  reset (T := demo_args) 21 demo_set5 = Some (success, demo_set5).
Proof.
  apply (reset_empty_slot (T := demo_args) demo_set5 21 1 0 5).
  - simpl. lia.
  - reflexivity.
  - reflexivity.
Defined.

(** * The bit-set refines a set of positions *)

Section refinement.

Context {T : template_args}.
Hypothesis Hwf : wf_args.

Lemma agree_init h out : agree (init h out) ∅.
Proof. intros x _. rewrite bit_init. by rewrite bool_decide_eq_false_2. Qed.

Lemma exec_agree c m S st m' :
  inv m → agree m S → valid_call c → exec c m = Some (st, m') →
  st = abs_status c S ∧ inv m' ∧ agree m' (abs_exec c S).
Proof.
  intros Hinv Hag Hc Hex.
  destruct (exec_spec Hwf c m st m' Hinv Hc Hex) as (Hinv' & _ & Hbit).
  split; [|split; [done|]].
  - destruct c as [sp pos| |pos|pos]; simpl in *.
    + destruct (set_spec Hwf sp pos m _ Hinv Hc Hex) as (m1 & Heq & _).
      by injection Heq as -> _.
    + destruct (reset_all_spec m Hinv) as (m1 & Hr & _).
      rewrite Hr in Hex. by injection Hex as <- _.
    + destruct (reset_spec Hwf pos m Hinv Hc) as (m1 & Hr & _).
      rewrite Hr in Hex. by injection Hex as <- _.
    + rewrite (test_spec Hwf) in Hex by done. injection Hex as <- _.
      by rewrite (Hag pos Hc).
  - intros x Hx. rewrite (Hbit x Hx), (Hag x Hx).
    destruct c as [sp pos| |pos|pos]; simpl.
    + apply eq_true_iff_eq. rewrite orb_true_iff, !bool_decide_eq_true.
      rewrite elem_of_union, elem_of_singleton. tauto.
    + symmetry. apply bool_decide_eq_false_2, not_elem_of_empty.
    + apply eq_true_iff_eq.
      rewrite andb_true_iff, negb_true_iff, bool_decide_eq_false,
        !bool_decide_eq_true.
      by rewrite elem_of_difference, elem_of_singleton.
    + done.
Qed.

Lemma exec_returns c m :
  inv m → valid_call c → no_spurious c → is_Some (exec c m).
Proof.
  intros Hinv Hc Hsp. destruct c as [sp pos| |pos|pos]; simpl in *.
  - subst sp. by apply set_returns.
  - destruct (reset_all_spec m Hinv) as (m1 & -> & _). eauto.
  - destruct (reset_spec Hwf pos m Hinv Hc) as (m1 & -> & _). eauto.
  - rewrite (test_spec Hwf) by done. eauto.
Qed.

Lemma trace_agree cs m S sts m' :
  inv m → agree m S → Forall valid_call cs →
  trace cs m = Some (sts, m') → sts = abs_trace cs S.
Proof.
  intros Hinv Hag Hcs. revert m S sts Hinv Hag.
  induction Hcs as [|c cs Hc _ IH]; intros m S sts Hinv Hag; simpl.
  - intros ?. by simplify_eq.
  - destruct (exec c m) as [[st m1]|] eqn:Hex; simpl; [|done].
    destruct (trace cs m1) as [[sts1 m2]|] eqn:Htr; simpl; [|done].
    intros ?. simplify_eq.
    destruct (exec_agree c m S st m1 Hinv Hag Hc Hex) as (-> & Hinv1 & Hag1).
    f_equal. by eapply IH.
Qed.

Lemma trace_returns cs m S :
  inv m → agree m S → Forall valid_call cs → Forall no_spurious cs →
  is_Some (trace cs m).
Proof.
  intros Hinv Hag Hcs Hsp. revert m S Hinv Hag.
  induction Hcs as [|c cs Hc _ IH]; intros m S Hinv Hag; simpl; [eauto|].
  apply Forall_cons in Hsp as [Hsp1 Hsp].
  destruct (exec_returns c m Hinv Hc Hsp1) as [[st m1] Hex]. rewrite Hex. simpl.
  destruct (exec_agree c m S st m1 Hinv Hag Hc Hex) as (_ & Hinv1 & Hag1).
  destruct (IH Hsp m1 _ Hinv1 Hag1) as [[sts m2] ->]. simpl. eauto.
Qed.

End refinement.

(** * Words stay in the word type *)

Section word_range.

Context {T : template_args}.
Hypothesis Hwf : wf_args.

Lemma WordBits_nonneg : 0 ≤ WordBits.
Proof. destruct (WordBits_cases Hwf) as [-> | [-> | ->]]; lia. Qed.

Lemma is_word_mod w : is_word w ↔ w mod 2 ^ WordBits = w.
Proof.
  pose proof WordBits_nonneg.
  assert (0 < 2 ^ WordBits) by (apply Z.pow_pos_nonneg; lia).
  unfold is_word. split.
  - intros Hw. by apply Z.mod_small.
  - intros <-. by apply Z.mod_pos_bound.
Qed.

Lemma is_word_testbit w k : is_word w → WordBits ≤ k → Z.testbit w k = false.
Proof.
  pose proof WordBits_nonneg.
  intros Hw%is_word_mod Hk. rewrite <- Hw. apply Z.mod_pow2_bits_high. lia.
Qed.

Lemma is_word_to_word v : is_word (to_word v).
Proof.
  pose proof WordBits_nonneg. apply Z.mod_pos_bound, Z.pow_pos_nonneg; lia.
Qed.

Lemma is_word_lor a b : is_word a → is_word b → is_word (Z.lor a b).
Proof.
  pose proof WordBits_nonneg.
  intros Ha Hb. apply is_word_mod. apply Z.bits_inj'. intros k Hk.
  destruct (Z.lt_ge_cases k WordBits).
  - by rewrite Z.mod_pow2_bits_low.
  - rewrite Z.mod_pow2_bits_high, Z.lor_spec by lia.
    by rewrite !is_word_testbit.
Qed.

Lemma is_word_land a b : is_word a → is_word (Z.land a b).
Proof.
  pose proof WordBits_nonneg.
  intros Ha. apply is_word_mod. apply Z.bits_inj'. intros k Hk.
  destruct (Z.lt_ge_cases k WordBits).
  - by rewrite Z.mod_pow2_bits_low.
  - rewrite Z.mod_pow2_bits_high, Z.land_spec by lia.
    by rewrite (is_word_testbit a).
Qed.

Lemma is_word_0 : is_word 0.
Proof.
  pose proof WordBits_nonneg. split; [done|]. apply Z.pow_pos_nonneg; lia.
Qed.

Lemma is_word_lookup ws i :
  Forall is_word ws → is_word (default 0 (ws !! i)).
Proof.
  intros Hws. destruct (ws !! i) as [w|] eqn:Hw; simpl; [|apply is_word_0].
  by eapply Forall_lookup_1.
Qed.

Lemma word_update_in_range f pos m :
  (∀ w o, is_word w → is_word (f w o)) →
  words_in_range m → ∀ j, Forall is_word (word_update f pos m j).
Proof.
  intros Hf Hm j. unfold word_update. destruct (relocate pos) as [[b i] o].
  case_decide; [|done].
  apply Forall_insert; [done|]. by apply Hf, is_word_lookup.
Qed.

Lemma words_in_range_init h out : words_in_range (init h out).
Proof.
  intros j. unfold bucket_words, owned, init. simpl.
  destruct (replicate Capacity None !! j) as [[p|]|] eqn:Hj; simpl.
  - by apply lookup_replicate in Hj as [? _].
  - apply Forall_replicate, is_word_0.
  - apply Forall_replicate, is_word_0.
Qed.

Lemma exec_words_in_range c m st m' :
  inv m → words_in_range m → valid_call c → exec c m = Some (st, m') →
  words_in_range m'.
Proof.
  intros Hinv Hm Hc Hex. destruct c as [sp pos| |pos|pos]; simpl in *.
  - destruct (set_spec Hwf sp pos m _ Hinv Hc Hex) as (m1 & Heq & _ & _ & Hw).
    simplify_eq. intros j. rewrite Hw. apply word_update_in_range; [|done].
    intros w o Hw'. by apply is_word_lor, is_word_to_word.
  - destruct (reset_all_spec m Hinv) as (m1 & Hr & _ & _ & Hw).
    simplify_eq. intros j. rewrite Hw. apply Forall_replicate, is_word_0.
  - destruct (reset_spec Hwf pos m Hinv Hc) as (m1 & Hr & _ & _ & Hw).
    simplify_eq. intros j. rewrite Hw. apply word_update_in_range; [|done].
    intros w o Hw'. by apply is_word_land.
  - rewrite (test_spec Hwf) in Hex by done. by simplify_eq.
Qed.

Lemma reachable_words_in_range m : reachable m → words_in_range m.
Proof.
  induction 1 as [h out | m c st m' Hm IH Hc Hex];
    [apply words_in_range_init|].
  eapply exec_words_in_range; [by apply reachable_inv | done..].
Qed.

(** setting a bit that is set, and clearing a bit that is clear, leave the
    word as it is *)
Lemma or_bit_set w o :
  0 ≤ o < WordBits → is_word w → Z.testbit w o = true → or_bit w o = w.
Proof.
  intros Ho Hw Hbit. apply Z.bits_inj'. intros k Hk. unfold or_bit.
  destruct (Z.lt_ge_cases k WordBits).
  - rewrite (fetch_or_bit Hwf) by lia.
    destruct (Z.eqb_spec k o) as [->|]; [by rewrite Hbit | apply orb_false_r].
  - rewrite Z.lor_spec, !is_word_testbit; done || apply is_word_to_word.
Qed.

Lemma and_not_bit_clear w o :
  0 ≤ o < WordBits → is_word w → Z.testbit w o = false → and_not_bit w o = w.
Proof.
  intros Ho Hw Hbit. apply Z.bits_inj'. intros k Hk. unfold and_not_bit.
  destruct (Z.lt_ge_cases k WordBits).
  - rewrite (fetch_and_bit Hwf) by lia.
    destruct (Z.eqb_spec k o) as [->|]; [by rewrite Hbit | apply andb_true_r].
  - by rewrite Z.land_spec, (is_word_testbit w).
Qed.

Lemma store_same q e m :
  deref q m = Some e →
  store q (mkBitSetElement (cardinality e) (words e)) m = m.
Proof.
  intros Hq%deref_Some. destruct m as [els hp out], e as [c ws].
  unfold store. simpl in *. f_equal. by apply list_insert_id.
Qed.

End word_range.

(** * The footprint of the calls on the heap *)

Section footprint.

Context {T : template_args}.
Hypothesis Hwf : wf_args.

Lemma heap_kept_refl m : heap_kept 0 m m.
Proof. split; [lia | done]. Qed.

Lemma heap_kept_store m k q e e' :
  elements m !! k = Some (Some q) → deref q m = Some e →
  heap_kept 0 m (store q e' m).
Proof.
  intros Hk Hq. split; [|split]; simpl.
  - rewrite length_insert. lia.
  - intros p Hp. destruct (decide (p = q)) as [->|Hne].
    + erewrite deref_store_eq; eauto.
    + by rewrite deref_store_ne.
  - intros p Hun _. apply list_lookup_insert_ne. intros ->. by apply (Hun k).
Qed.

Lemma heap_kept_install m k e : heap_kept 1 m (install k e m).
Proof.
  split; [|split]; simpl.
  - rewrite length_app. simpl. lia.
  - intros p [e0 Hp]. erewrite deref_install_old; eauto.
  - intros p _ Hp. by apply lookup_app_l.
Qed.

Lemma set_heap_kept spurious pos m st m' :
  inv m → valid_pos pos → set spurious pos m = Some (st, m') →
  heap_kept (if allocates (call_set spurious pos) m then 1 else 0) m m'.
Proof.
  intros Hinv Hpos. unfold set, allocates.
  rewrite (relocate_valid Hwf) by done.
  destruct (MaxTries_S Hwf) as [n ->].
  pose proof (valid_index Hwf _ Hpos) as Hi.
  pose proof (valid_slot Hwf pos m Hinv Hpos) as Hslot. simpl in Hslot.
  destruct Hslot as [[Hld Hown] | (q & e & Hld & Hk & Hq & Hown & Hc & Hl)].
  - rewrite bool_decide_eq_true_2 by done.
    simpl. rewrite Hld. simpl. unfold BitSetElement_new.
    destruct (_ <=? _); unfold fetch_or;
      rewrite ?lookup_replicate_2 by lia; simpl;
      unfold compare_exchange_weak, load in *; simpl; rewrite Hld; simpl;
      (destruct spurious; simpl; [done|]); intros [= _ <-];
      apply (heap_kept_install m (Z.to_nat (pos / 2 ^ BitsetWidth))).
  - rewrite bool_decide_eq_false_2 by (rewrite Hld; congruence).
    simpl. rewrite Hld. simpl. rewrite Hq. simpl. rewrite Hc, Z.eqb_refl.
    unfold BitSetElement_set, fetch_or.
    destruct (words e !! _); simpl; [|done]. intros [= _ <-].
    by eapply heap_kept_store.
Qed.

Lemma reset_heap_kept pos m st m' :
  inv m → valid_pos pos → reset pos m = Some (st, m') → heap_kept 0 m m'.
Proof.
  intros Hinv Hpos. unfold reset.
  rewrite (relocate_valid Hwf) by done.
  destruct (MaxTries_S Hwf) as [n ->].
  pose proof (valid_slot Hwf pos m Hinv Hpos) as Hslot. simpl in Hslot.
  destruct Hslot as [[Hld Hown] | (q & e & Hld & Hk & Hq & Hown & Hc & Hl)].
  - simpl. rewrite Hld. simpl. intros [= _ <-]. apply heap_kept_refl.
  - simpl. rewrite Hld. simpl. rewrite Hq. simpl. rewrite Hc, Z.eqb_refl.
    unfold BitSetElement_reset, fetch_and.
    destruct (words e !! _); simpl; [|done]. intros [= _ <-].
    by eapply heap_kept_store.
Qed.

Lemma reset_all_heap_kept m st m' :
  inv m → reset_all m = Some (st, m') → heap_kept 0 m m'.
Proof.
  intros Hinv. unfold reset_all.
  destruct (for_loop_inv reset_slot
              (λ _ t, inv t ∧ elements t = elements m ∧ heap_kept 0 m t)
              Capacity 0%nat m) as (m1 & -> & _ & _ & Hk).
  - split; [done|]. split; [done | apply heap_kept_refl].
  - intros k t Hk (Ht & Hel & Hkept). unfold reset_slot.
    destruct (inv_slot t k Ht) as [Hs | (p & e & Hs & Hp & Hc & Hl)];
      [lia | |]; rewrite Hs; simpl.
    + by exists t.
    + rewrite Hp. simpl. rewrite clear_words_spec by done. simpl.
      eexists. split; [done|]. split; [|split; [done|]].
      * eapply inv_store; simpl; try done. by rewrite length_replicate.
      * destruct Hkept as (Hlen & Hlive & Hun).
        destruct (heap_kept_store t k p e
                    (mkBitSetElement (cardinality e)
                       (replicate (Z.to_nat nwords) 0)) Hs Hp)
          as (Hlen' & Hlive' & Hun').
        split; [lia|]. split; [by intros q Hq; apply Hlive', Hlive|].
        intros q Hq Hlt. rewrite <- (Hun q) by done. apply Hun'; [|lia].
        intros i. rewrite Hel. apply Hq.
  - simpl. by intros [= _ <-].
Qed.

Lemma exec_heap_kept c m st m' :
  inv m → valid_call c → exec c m = Some (st, m') →
  heap_kept (if allocates c m then 1 else 0) m m'.
Proof.
  intros Hinv Hc Hex. destruct c as [sp pos| |pos|pos]; simpl in Hex.
  - by eapply set_heap_kept.
  - by eapply reset_all_heap_kept.
  - by eapply reset_heap_kept.
  - rewrite (test_spec Hwf) in Hex by done. simplify_eq. apply heap_kept_refl.
Qed.

End footprint.

(** * The mismatch branch *)

Section mismatch.

Context {T : template_args}.

(** the retry goes back to the first bit of the same bucket *)
Lemma relocate_retry_pos bucket :
  0 ≤ BitsetWidth ≤ 30 → 0 ≤ bucket →
  bucket * 2 ^ BitsetWidth < 2 ^ 64 →
  bucket * 2 ^ BitsetWidth < 2 ^ IndexBits →
  relocate (retry_pos bucket) = (bucket, 0, 0).
Proof.
  intros Hw Hb H64 Hidx.
  assert (0 < 2 ^ BitsetWidth) as Hpow by (apply Z.pow_pos_nonneg; lia).
  assert (retry_pos bucket = bucket * 2 ^ BitsetWidth) as ->.
  { unfold retry_pos, to_Index, size_t_shl, to_size_t.
    rewrite Z.shiftl_mul_pow2 by lia.
    rewrite (Z.mod_small _ (2 ^ 64)) by nia. apply Z.mod_small. nia. }
  unfold relocate.
  rewrite Z.shiftr_div_pow2, Z.div_mul by lia.
  rewrite int_shl_1_small by done.
  replace (2 ^ BitsetWidth - 1) with (Z.ones BitsetWidth)
    by (rewrite Z.ones_equiv; lia).
  rewrite Z.land_ones, Z.mod_mul by lia.
  unfold to_size_t. rewrite !Z.mod_small by nia.
  by rewrite Zdiv_0_l, Z.land_0_l.
Qed.

(** the bucket id of a position, shifted back, does not exceed the
    position *)
Lemma relocate_bucket pos bucket index offset :
  0 ≤ BitsetWidth → 0 ≤ pos < 2 ^ 64 →
  relocate pos = (bucket, index, offset) →
  0 ≤ bucket ∧ bucket * 2 ^ BitsetWidth ≤ pos.
Proof.
  intros Hw Hpos. unfold relocate. intros [= <- _ _].
  assert (0 < 2 ^ BitsetWidth) as Hpow by (apply Z.pow_pos_nonneg; lia).
  rewrite Z.shiftr_div_pow2 by done.
  assert (0 ≤ pos / 2 ^ BitsetWidth ≤ pos).
  { split; [apply Z.div_pos; lia|]. apply Z.div_le_upper_bound; nia. }
  unfold to_size_t. rewrite Z.mod_small by lia.
  split; [lia|]. rewrite Z.mul_comm. apply Z.mul_div_le. lia.
Qed.

Section loops.

Variables (bucket : Z) (q : nat) (e : BitSetElement) (card : Z).
Variables (els : list (option nat)) (hp : list (option BitSetElement)).
Hypothesis Hretry : relocate (retry_pos bucket) = (bucket, 0, 0).
Hypothesis Hslot : els !! Z.to_nat bucket = Some (Some q).
Hypothesis Hobj : hp !! q = Some (Some e).
Hypothesis Htag : cardinality e ≠ card.

Local Opaque relocate.

Lemma printed_tries_S t left :
  Z.of_nat t + 1 < 2 ^ 64 →
  [to_size_t (Z.of_nat t + 1)] ++ printed_tries (S t) left = printed_tries t (S left).
Proof.
  intros Ht. unfold printed_tries, to_size_t. simpl.
  rewrite Z.mod_small by lia. do 2 f_equal. lia.
Qed.

Lemma test_loop_mismatch left t index offset out :
  Z.of_nat (t + left) < 2 ^ 64 →
  test_loop left card (Z.of_nat t) bucket index offset (mkMachine els hp out)
  = Some (not_found, mkMachine els hp (out ++ printed_tries t left)).
Proof.
  revert t index offset out.
  induction left as [|left IH]; intros t index offset out Ht; simpl.
  - unfold printed_tries. simpl. by rewrite app_nil_r.
  - unfold load, deref. simpl. rewrite Hslot. simpl. rewrite Hobj. simpl.
    rewrite (proj2 (Z.eqb_neq _ _) Htag), Hretry.
    unfold printf_tries. simpl.
    rewrite <- printed_tries_S, app_assoc by lia.
    replace (to_size_t (Z.of_nat t + 1)) with (Z.of_nat (S t))
      by (unfold to_size_t; rewrite Z.mod_small; lia).
    apply IH. lia.
Qed.

Lemma reset_loop_mismatch left t index offset out :
  Z.of_nat (t + left) < 2 ^ 64 →
  reset_loop left card (Z.of_nat t) bucket index offset (mkMachine els hp out)
  = Some (not_found, mkMachine els hp (out ++ printed_tries t left)).
Proof.
  revert t index offset out.
  induction left as [|left IH]; intros t index offset out Ht; simpl.
  - unfold printed_tries. simpl. by rewrite app_nil_r.
  - unfold load, deref. simpl. rewrite Hslot. simpl. rewrite Hobj. simpl.
    rewrite (proj2 (Z.eqb_neq _ _) Htag), Hretry.
    unfold printf_tries. simpl.
    rewrite <- printed_tries_S, app_assoc by lia.
    replace (to_size_t (Z.of_nat t + 1)) with (Z.of_nat (S t))
      by (unfold to_size_t; rewrite Z.mod_small; lia).
    apply IH. lia.
Qed.

Lemma set_loop_mismatch left spurious t index offset out :
  Z.of_nat (t + left) < 2 ^ 64 →
  set_loop left spurious card (Z.of_nat t) bucket index offset None
           (mkMachine els hp out)
  = Some (failed, mkMachine els hp (out ++ printed_tries t left)).
Proof.
  revert t index offset out.
  induction left as [|left IH]; intros t index offset out Ht; simpl.
  - unfold printed_tries. simpl. by rewrite app_nil_r.
  - unfold load, deref. simpl. rewrite Hslot. simpl. rewrite Hobj. simpl.
    rewrite (proj2 (Z.eqb_neq _ _) Htag), Hretry.
    unfold printf_tries. simpl.
    rewrite <- printed_tries_S, app_assoc by lia.
    replace (to_size_t (Z.of_nat t + 1)) with (Z.of_nat (S t))
      by (unfold to_size_t; rewrite Z.mod_small; lia).
    apply IH. lia.
Qed.

Local Transparent relocate.

End loops.

End mismatch.

(** * Further properties of the bit-set *)

Section further_properties.

Context {T : template_args}.

(** X1: a bit-set behaves as a mathematical set of positions.  From its
    construction on, the statuses that any sequence of calls at valid
    positions returns are those of the set: success for [set] and [reset],
    yes or no for [test] by membership.  The sequence runs to its end when
    no compare-exchange fails spuriously. *)
Theorem trace_refines_set cs h out :
  wf_args → Forall valid_call cs →
  (∀ sts m, trace cs (init h out) = Some (sts, m) → sts = abs_trace cs ∅) ∧
  (Forall no_spurious cs →
   ∃ m, trace cs (init h out) = Some (abs_trace cs ∅, m)).
Proof.
  intros Hwf Hcs. split.
  - intros sts m. apply (trace_agree Hwf); [apply inv_init | apply agree_init | done].
  - intros Hsp.
    destruct (trace_returns Hwf cs (init h out) ∅) as [[sts m] Htr];
      [apply inv_init | apply agree_init | done | done |].
    exists m. rewrite Htr. do 2 f_equal.
    eapply (trace_agree Hwf); [apply inv_init | apply agree_init | done | done].
Qed.

(** X2: in every reachable state a bucket object that a slot holds has
    exactly [(1 << BitsetWidth) / (8 * sizeof(BitsetWord))] words, and each
    of them is a value of the word type: no operation sets a bit beyond the
    width of the word. *)
Theorem bucket_words_well_formed m i p e :
  wf_args → reachable m →
  elements m !! i = Some (Some p) → deref p m = Some e →
  length (words e) = Z.to_nat nwords ∧
  Forall (λ w, 0 ≤ w < 2 ^ WordBits) (words e).
Proof.
  intros Hwf Hm Hi Hp.
  pose proof (reachable_words_in_range Hwf m Hm i) as Hr.
  pose proof (bucket_words_length m i (reachable_inv Hwf m Hm)) as Hl.
  unfold bucket_words in *. by rewrite (owned_Some m i p e) in * by done.
Qed.

(** X3: [set(pos)] is idempotent: when [test(pos)] answers yes, [set(pos)]
    returns success and leaves the whole state as it is: slots, bucket
    objects and output. *)
Theorem set_idempotent m spurious pos :
  wf_args → reachable m → valid_pos pos →
  test pos m = Some (yes, m) →
  set spurious pos m = Some (success, m).
Proof.
  intros Hwf Hm Hpos Htest.
  pose proof (reachable_words_in_range Hwf m Hm) as Hrange.
  apply (reachable_inv Hwf) in Hm.
  rewrite (test_spec Hwf) in Htest by done.
  assert (bit m pos = true) as Hbit by (by destruct (bit m pos)).
  clear Htest. revert Hbit. unfold bit, set.
  rewrite (relocate_valid Hwf) by done.
  destruct (MaxTries_S Hwf) as [n ->].
  pose proof (valid_index Hwf _ Hpos) as Hi.
  pose proof (valid_offset Hwf _ Hpos) as Ho.
  pose proof (valid_slot Hwf pos m Hm Hpos) as Hslot. simpl in Hslot.
  specialize (Hrange (Z.to_nat (pos / 2 ^ BitsetWidth))).
  unfold bucket_words in *.
  destruct Hslot as [[Hld Hown] | (q & e & Hld & Hk & Hq & Hown & Hc & Hl)];
    rewrite Hown in *.
  - rewrite lookup_replicate_2 by lia. simpl. by rewrite Z.bits_0.
  - destruct (lookup_lt_is_Some_2 (words e)
                (Z.to_nat (pos mod 2 ^ BitsetWidth / WordBits))) as [w Hw];
      [lia|].
    rewrite Hw. simpl. intros Hbit. rewrite Hld. simpl. rewrite Hq. simpl.
    rewrite Hc, Z.eqb_refl. unfold BitSetElement_set, fetch_or.
    rewrite Hw. simpl.
    fold (or_bit w ((pos mod 2 ^ BitsetWidth) mod WordBits)).
    rewrite (or_bit_set Hwf), list_insert_id;
      [by rewrite store_same | done.. | by eapply Forall_lookup_1 | done].
Qed.

(** X4: [reset(pos)] is idempotent: when [test(pos)] answers no,
    [reset(pos)] returns success and leaves the whole state as it is. *)
Theorem reset_twice_idempotent m pos :
  wf_args → reachable m → valid_pos pos →
  test pos m = Some (no, m) →
  reset pos m = Some (success, m).
Proof.
  intros Hwf Hm Hpos Htest.
  pose proof (reachable_words_in_range Hwf m Hm) as Hrange.
  apply (reachable_inv Hwf) in Hm.
  rewrite (test_spec Hwf) in Htest by done.
  assert (bit m pos = false) as Hbit by (by destruct (bit m pos)).
  clear Htest. revert Hbit. unfold bit, reset.
  rewrite (relocate_valid Hwf) by done.
  destruct (MaxTries_S Hwf) as [n ->].
  pose proof (valid_index Hwf _ Hpos) as Hi.
  pose proof (valid_offset Hwf _ Hpos) as Ho.
  pose proof (valid_slot Hwf pos m Hm Hpos) as Hslot. simpl in Hslot.
  specialize (Hrange (Z.to_nat (pos / 2 ^ BitsetWidth))).
  unfold bucket_words in *.
  destruct Hslot as [[Hld Hown] | (q & e & Hld & Hk & Hq & Hown & Hc & Hl)];
    rewrite Hown in *.
  - intros _. simpl. by rewrite Hld.
  - destruct (lookup_lt_is_Some_2 (words e)
                (Z.to_nat (pos mod 2 ^ BitsetWidth / WordBits))) as [w Hw];
      [lia|].
    rewrite Hw. simpl. intros Hbit. rewrite Hld. simpl. rewrite Hq. simpl.
    rewrite Hc, Z.eqb_refl. unfold BitSetElement_reset, fetch_and.
    rewrite Hw. simpl.
    fold (and_not_bit w ((pos mod 2 ^ BitsetWidth) mod WordBits)).
    rewrite (and_not_bit_clear Hwf), list_insert_id;
      [by rewrite store_same | done.. | by eapply Forall_lookup_1 | done].
Qed.

(** X5: the footprint of a call on the heap.  [set(pos)] allocates one
    bucket object when the slot of [pos] is empty and none otherwise; no
    other call allocates.  No call frees an object, and no call writes to a
    heap cell that no slot points to. *)
Theorem heap_footprint c m st m' :
  wf_args → reachable m → valid_call c → exec c m = Some (st, m') →
  length (heap m') = (length (heap m) + if allocates c m then 1 else 0)%nat ∧
  (∀ p, is_Some (deref p m) → is_Some (deref p m')) ∧
  (∀ p, unowned m p → (p < length (heap m))%nat → heap m' !! p = heap m !! p).
Proof.
  intros Hwf Hm Hc Hex. apply (reachable_inv Hwf) in Hm.
  by apply (exec_heap_kept Hwf c m st m').
Qed.

(** X6: positions are not checked against the capacity.  At a position
    whose bucket id is [Capacity] or more, [set], [reset(pos)] and [test]
    index [elements] out of range: the behaviour is undefined. *)
Theorem out_of_range_undefined m spurious pos :
  (0 < MaxTries)%nat → 0 ≤ BitsetWidth →
  length (elements m) = Capacity →
  Z.of_nat Capacity * 2 ^ BitsetWidth ≤ pos < 2 ^ 64 →
  set spurious pos m = None ∧ reset pos m = None ∧ test pos m = None.
Proof.
  intros Htries Hw Hlen Hpos.
  assert (0 < 2 ^ BitsetWidth) as Hpow by (apply Z.pow_pos_nonneg; lia).
  assert (Z.of_nat Capacity ≤ pos / 2 ^ BitsetWidth < 2 ^ 64) as Hb.
  { split; [apply Z.div_le_lower_bound; lia|].
    apply Z.div_lt_upper_bound; nia. }
  assert (∃ i o, relocate pos = (pos / 2 ^ BitsetWidth, i, o)) as (i & o & Hrel).
  { unfold relocate. rewrite Z.shiftr_div_pow2 by done.
    unfold to_size_t at 1. rewrite (Z.mod_small (pos / _)) by lia. eauto. }
  unfold set, reset, test. rewrite Hrel.
  destruct MaxTries as [|n]; [lia|]. simpl. unfold load.
  rewrite lookup_ge_None_2 by lia. done.
Qed.

(** X7: [set(pos)] on an empty slot whose compare-exchange fails spuriously
    reads [elt->cardinality] through the null pointer that the failed
    compare-exchange has loaded: the behaviour is undefined. *)
Theorem spurious_failure_undefined m pos bucket index offset :
  (0 < MaxTries)%nat →
  relocate pos = (bucket, index, offset) →
  load bucket m = Some None →
  set true pos m = None.
Proof.
  intros Htries Hrel Hload. unfold set. rewrite Hrel.
  destruct MaxTries as [|n]; [lia|]. simpl. rewrite Hload. simpl.
  destruct (BitSetElement_new bucket index offset) as [e|]; simpl; [|done].
  unfold compare_exchange_weak, load in *. simpl. by rewrite Hload.
Qed.

(** X8: the retry does not resolve a mismatch.  When the slot of a position
    holds an object whose tag is not the bucket id (a state that no sequence
    of calls at valid positions produces), every retry decomposes to the same
    slot again: after [MaxTries] rounds, each printing [tries], [set]
    returns failed and [reset(pos)] and [test] return not_found.  Nothing
    but the output has changed. *)
Theorem mismatch_exhausts_retries m spurious pos bucket index offset q e :
  0 ≤ BitsetWidth ≤ 30 → Z.of_nat MaxTries < 2 ^ 64 →
  0 ≤ pos < 2 ^ 64 → pos < 2 ^ IndexBits →
  relocate pos = (bucket, index, offset) →
  load bucket m = Some (Some q) → deref q m = Some e →
  cardinality e ≠ bucket →
  set spurious pos m = Some (failed, after_retries MaxTries m) ∧
  reset pos m = Some (not_found, after_retries MaxTries m) ∧
  test pos m = Some (not_found, after_retries MaxTries m).
Proof.
  intros Hw Htries Hpos Hidx Hrel Hload Hq%deref_Some Htag.
  destruct (relocate_bucket pos bucket index offset) as [Hb Hle];
    [lia | done | done |].
  assert (relocate (retry_pos bucket) = (bucket, 0, 0)) as Hretry
    by (apply relocate_retry_pos; lia).
  unfold set, reset, test, after_retries. rewrite Hrel.
  destruct m as [els hp out]. unfold load in Hload. simpl in *.
  split; [|split].
  - by apply (set_loop_mismatch bucket q e bucket els hp Hretry Hload Hq Htag
                MaxTries spurious 0%nat).
  - by apply (reset_loop_mismatch bucket q e bucket els hp Hretry Hload Hq Htag
                MaxTries 0%nat).
  - by apply (test_loop_mismatch bucket q e bucket els hp Hretry Hload Hq Htag
                MaxTries 0%nat).
Qed.

End further_properties.

(** * The further properties at the example states *)

Lemma demo_trace_valid : Forall (valid_call (T := demo_args)) demo_trace.
Proof. repeat constructor; apply demo_valid_pos; lia. Defined.

Lemma trace_refines_set_witness :
  ∃ m, trace (T := demo_args) demo_trace demo_init
       = Some ([success; yes; no; success; no], m).
Proof.
  destruct (trace_refines_set (T := demo_args) demo_trace [] []
              demo_args_wf demo_trace_valid) as [_ Hruns].
  apply Hruns. repeat constructor.
Defined.

Lemma bucket_words_well_formed_witness :
  length [32; 0] = Z.to_nat (nwords (T := demo_args)) ∧
  Forall (λ w, 0 ≤ w < 2 ^ WordBits (T := demo_args)) [32; 0].
Proof.
  apply (bucket_words_well_formed (T := demo_args) demo_set5 0%nat 0%nat
           (mkBitSetElement 0 [32; 0])).
  - apply demo_args_wf.
  - apply demo_set5_reachable.
  - reflexivity.
  - reflexivity.
Defined.

Lemma set_idempotent_witness :
  set (T := demo_args) true 5 demo_set5 = Some (success, demo_set5).
Proof.
  apply (set_idempotent (T := demo_args) demo_set5 true 5).
  - apply demo_args_wf.
  - apply demo_set5_reachable.
  - apply demo_valid_pos. lia.
  - reflexivity.
Defined.

Lemma reset_twice_idempotent_witness :
  reset (T := demo_args) 6 demo_set5 = Some (success, demo_set5).
Proof.
  apply (reset_twice_idempotent (T := demo_args) demo_set5 6).
  - apply demo_args_wf.
  - apply demo_set5_reachable.
  - apply demo_valid_pos. lia.
  - reflexivity.
Defined.

Lemma heap_footprint_witness :
  length (heap demo_final) = (length (heap demo_set5) + 1)%nat ∧
  (∀ p, is_Some (deref p demo_set5) → is_Some (deref p demo_final)) ∧
  (∀ p, unowned demo_set5 p → (p < length (heap demo_set5))%nat →
        heap demo_final !! p = heap demo_set5 !! p).
Proof.
  apply (heap_footprint (T := demo_args) (call_set false 16) demo_set5
           success demo_final).
  - apply demo_args_wf.
  - apply demo_set5_reachable.
  - apply demo_valid_pos. lia.
  - reflexivity.
Defined.

Lemma out_of_range_undefined_witness :
  set (T := demo_args) false 64 demo_init = None ∧
  reset (T := demo_args) 64 demo_init = None ∧
  test (T := demo_args) 64 demo_init = None.
Proof.
  apply (out_of_range_undefined (T := demo_args) demo_init false 64).
  - simpl. lia.
  - simpl. lia.
  - reflexivity.
  - simpl. lia.
Defined.

Lemma spurious_failure_undefined_witness :
  set (T := demo_args) true 5 demo_init = None.
Proof.
  apply (spurious_failure_undefined (T := demo_args) demo_init 5 0 0 5).
  - simpl. lia.
  - reflexivity.
  - reflexivity.
Defined.

Lemma mismatch_exhausts_retries_witness :
  set (T := demo_args) false 5 demo_mismatch
  = Some (failed, after_retries 32 demo_mismatch) ∧
  reset (T := demo_args) 5 demo_mismatch
  = Some (not_found, after_retries 32 demo_mismatch) ∧
  test (T := demo_args) 5 demo_mismatch
  = Some (not_found, after_retries 32 demo_mismatch).
Proof.
  apply (mismatch_exhausts_retries (T := demo_args) demo_mismatch false 5
           0 0 5 0%nat (mkBitSetElement 7 [0; 0])); simpl; try lia;
    try reflexivity.
Defined.

(** * The self-check of the benchmark *)

Lemma for_range_inv {St : Type} (body : Z → St → option St)
    (P : Z → St → Prop) lo hi s :
  lo ≤ hi → P lo s →
  (∀ i t, lo ≤ i < hi → P i t → ∃ t', body i t = Some t' ∧ P (i + 1) t') →
  ∃ s', for_range lo hi body s = Some s' ∧ P hi s'.
Proof.
  intros Hle Hs Hbody. unfold for_range.
  destruct (for_loop_inv (λ k, body (lo + Z.of_nat k))
              (λ k t, P (lo + Z.of_nat k) t)
              (Z.to_nat (hi - lo)) 0%nat s) as (s' & Hs' & HP).
  - by rewrite Z.add_0_r.
  - intros k t Hk Ht. destruct (Hbody (lo + Z.of_nat k) t) as (t' & ? & Ht');
      [lia | done |].
    exists t'. split; [done|].
    by replace (lo + Z.of_nat (S k)) with (lo + Z.of_nat k + 1) by lia.
  - exists s'. split; [done|].
    by replace (lo + Z.of_nat (0 + Z.to_nat (hi - lo))) with hi in HP by lia.
Qed.

Lemma for_range_empty {St : Type} (body : Z → St → option St) lo hi s :
  hi ≤ lo → for_range lo hi body s = Some s.
Proof.
  intros Hle. unfold for_range.
  by replace (Z.to_nat (hi - lo)) with 0%nat by lia.
Qed.

(** ** Counting *)

Lemma count_from_bound P lo k : 0 ≤ count_from P lo k ≤ Z.of_nat k.
Proof.
  induction k as [|k IH]; simpl; [lia|].
  destruct (P (lo + Z.of_nat k)); simpl; lia.
Qed.

Lemma count_from_ext P Q lo k :
  (∀ x, lo ≤ x < lo + Z.of_nat k → P x = Q x) →
  count_from P lo k = count_from Q lo k.
Proof.
  induction k as [|k IH]; intros Heq; simpl; [done|].
  rewrite IH by (intros x Hx; apply Heq; lia).
  by rewrite Heq by lia.
Qed.

Lemma count_from_orb P Q lo k :
  (∀ x, lo ≤ x < lo + Z.of_nat k → P x && Q x = false) →
  count_from (λ x, P x || Q x) lo k = count_from P lo k + count_from Q lo k.
Proof.
  induction k as [|k IH]; intros Hdis; simpl; [done|].
  rewrite IH by (intros x Hx; apply Hdis; lia).
  specialize (Hdis (lo + Z.of_nat k)).
  destruct (P _), (Q _); simpl in *; lia.
Qed.

Lemma count_from_interval a b lo k :
  count_from (λ x, (a <=? x) && (x <? b)) lo k
  = Z.max 0 (Z.min b (lo + Z.of_nat k) - Z.max a lo).
Proof.
  induction k as [|k IH]; simpl; [lia|].
  rewrite IH.
  destruct (Z.leb_spec a (lo + Z.of_nat k)), (Z.ltb_spec (lo + Z.of_nat k) b);
    simpl; lia.
Qed.

Lemma in_ranges_disjoint r rs x :
  Forall (λ r', range_max r ≤ range_min r' ∨ range_max r' ≤ range_min r) rs →
  ((range_min r <=? x) && (x <? range_max r)) && in_ranges rs x = false.
Proof.
  intros Hdis. apply not_true_is_false.
  rewrite !andb_true_iff, Z.leb_le, Z.ltb_lt. intros [[? ?] Hin].
  unfold in_ranges in Hin. apply existsb_exists in Hin as (r' & Hr' & Hx).
  rewrite andb_true_iff, Z.leb_le, Z.ltb_lt in Hx.
  rewrite Forall_forall in Hdis. apply list_elem_of_In in Hr'.
  destruct (Hdis r' Hr'); lia.
Qed.

Lemma count_in_ranges rs lo k :
  disjoint_ranges rs →
  Forall (λ r, lo ≤ range_min r ∧ range_min r ≤ range_max r ∧
               range_max r ≤ lo + Z.of_nat k) rs →
  count_from (in_ranges rs) lo k = sum_sizes rs.
Proof.
  induction rs as [|r rs IH]; simpl.
  - intros _ _. induction k as [|k IHk]; simpl; [done|]. by rewrite IHk.
  - intros [Hdis Hrs] Hall. apply Forall_cons in Hall as [Hr Hall].
    rewrite (count_from_ext _
               (λ x, ((range_min r <=? x) && (x <? range_max r))
                     || in_ranges rs x)) by done.
    rewrite count_from_orb by (intros x _; by apply in_ranges_disjoint).
    rewrite count_from_interval, IH by done. lia.
Qed.
Section bench.

Context {T : template_args}.
Hypothesis Hwf : wf_args.

Lemma bits_are_init h out : bits_are (init h out) (λ _, false).
Proof. intros x _. apply bit_init. Qed.

(** setting the positions from [lo] to [hi - 1] *)
Lemma setter_range m P lo hi :
  inv m → bits_are m P → 0 ≤ lo → hi ≤ Z.of_nat Capacity * 2 ^ BitsetWidth →
  ∃ m', for_range lo hi (bitset_setter false) m = Some m' ∧ inv m' ∧
        stdout m' = stdout m ∧
        bits_are m' (λ x, P x || ((lo <=? x) && (x <? hi))).
Proof.
  intros Hinv Hbits Hlo Hhi. destruct (Z.le_gt_cases lo hi) as [Hle|Hgt].
  - apply (for_range_inv (bitset_setter false)
             (λ i t, inv t ∧ stdout t = stdout m ∧
                     bits_are t (λ x, P x || ((lo <=? x) && (x <? i))))).
    + done.
    + split; [done|]. split; [done|]. intros x Hx. rewrite (Hbits x Hx).
      destruct (Z.leb_spec lo x), (Z.ltb_spec x lo); simpl;
        lia || by rewrite orb_false_r.
    + intros i t Hi (Ht & Hout & Hbt). unfold bitset_setter.
      assert (valid_pos i) as Hv by (unfold valid_pos; lia).
      destruct (set_returns Hwf i t Ht Hv) as [[st t'] Hset]. rewrite Hset.
      simpl. eexists. split; [done|].
      destruct (exec_spec Hwf (call_set false i) t st t' Ht Hv Hset)
        as (Ht' & Hout' & Hbit).
      split; [done|]. split; [congruence|].
      intros x Hx. rewrite (Hbit x Hx), (Hbt x Hx). simpl.
      rewrite <- orb_assoc. f_equal.
      destruct (decide (x = i)) as [Heq|Hne];
        [rewrite bool_decide_eq_true_2 by done
        |rewrite bool_decide_eq_false_2 by done];
        destruct (Z.leb_spec lo x), (Z.ltb_spec x i), (Z.ltb_spec x (i + 1));
        simpl; lia || done.
  - rewrite for_range_empty by lia. exists m. split; [done|]. split; [done|].
    split; [done|]. intros x Hx. rewrite (Hbits x Hx).
    destruct (Z.leb_spec lo x), (Z.ltb_spec x hi); simpl;
      lia || by rewrite orb_false_r.
Qed.

Lemma set_all_spec ranges m P :
  inv m → bits_are m P →
  Forall (λ r, 0 ≤ range_min r ∧ range_max r ≤ Z.of_nat Capacity * 2 ^ BitsetWidth) ranges →
  ∃ m', set_all ranges (bitset_setter false) m = Some (true, m') ∧ inv m' ∧
        stdout m' = stdout m ∧
        bits_are m' (λ x, P x || in_ranges ranges x).
Proof.
  intros Hinv Hbits Hall. unfold set_all.
  enough (∃ m', for_each ranges
                  (λ r, for_range (range_min r) (range_max r)
                                  (bitset_setter false)) m = Some m' ∧
                inv m' ∧ stdout m' = stdout m ∧
                bits_are m' (λ x, P x || in_ranges ranges x))
    as (m' & -> & ?); [by exists m'|].
  revert m P Hinv Hbits.
  induction Hall as [|r rs [Hlo Hhi] _ IH]; intros m P Hinv Hbits; simpl.
  - exists m. split; [done|]. split; [done|]. split; [done|].
    intros x Hx. by rewrite orb_false_r, (Hbits x Hx).
  - destruct (setter_range m P (range_min r) (range_max r))
      as (m1 & -> & Hinv1 & Hout1 & Hbits1); [done..|]. simpl.
    destruct (IH m1 _ Hinv1 Hbits1) as (m' & -> & Hinv' & Hout' & Hbits').
    exists m'. split; [done|]. split; [done|]. split; [congruence|].
    intros x Hx. by rewrite (Hbits' x Hx), orb_assoc.
Qed.

(** counting the positions from [lo] to [hi - 1] that test yes *)
Lemma getter_range m P lo hi :
  inv m → bits_are m P → 0 ≤ lo → hi ≤ Z.of_nat Capacity * 2 ^ BitsetWidth → hi < 2 ^ 64 →
  for_range lo hi
    (λ i '(n, s), '(b, s') ← bitset_getter i s;
                  Some (to_size_t (n + Z.b2z b), s'))
    (0, m)
  = Some (count_from P lo (Z.to_nat (hi - lo)), m).
Proof.
  intros Hinv Hbits Hlo Hhi H64. unfold for_range.
  destruct (for_loop_inv
              (λ k '(n, s), '(b, s') ← bitset_getter (lo + Z.of_nat k) s;
                            Some (to_size_t (n + Z.b2z b), s'))
              (λ k ns, ns = (count_from P lo k, m))
              (Z.to_nat (hi - lo)) 0%nat (0, m)) as (ns & -> & ->); [done| |done].
  intros k [n s] Hk [= -> ->]. unfold bitset_getter.
  assert (valid_pos (lo + Z.of_nat k)) as Hv
    by (unfold valid_pos; lia).
  rewrite (test_spec Hwf) by done. simpl. rewrite (Hbits _ Hv).
  eexists. split; [done|]. simpl. f_equal.
  pose proof (count_from_bound P lo k).
  unfold to_size_t.
  destruct (P (lo + Z.of_nat k)); simpl; rewrite Z.mod_small; lia.
Qed.

End bench.
Lemma sum_sizes_nonneg rs :
  Forall (λ r, range_min r ≤ range_max r) rs → 0 ≤ sum_sizes rs.
Proof. induction 1; simpl; lia. Qed.

Lemma sum_sizes_le rs B :
  disjoint_ranges rs →
  Forall (λ r, 0 ≤ range_min r ∧ range_min r ≤ range_max r ∧ range_max r ≤ B)
         rs →
  sum_sizes rs ≤ B ∨ rs = [].
Proof.
  intros Hdis Hall. destruct rs as [|r rs]; [by right | left].
  assert (0 ≤ B) by (apply Forall_cons in Hall as [? _]; lia).
  rewrite <- (count_in_ranges (r :: rs) 0 (Z.to_nat B)); [|done|].
  - pose proof (count_from_bound (in_ranges (r :: rs)) 0 (Z.to_nat B)). lia.
  - apply (Forall_impl _ _ _ Hall). simpl. intros; lia.
Qed.

(** the first loop of [test_all], from any values of its variables *)
Lemma scan_fold rs mn mx ex :
  Forall (λ r, range_min r ≤ range_max r) rs →
  0 ≤ ex → ex + sum_sizes rs < 2 ^ 64 →
  ∃ mn' mx',
    fold_left
      (λ '(min, max, expected) r,
         (Z.min min (range_min r), Z.max max (range_max r),
          to_size_t (expected + range_size r)))
      rs (mn, mx, ex) = (mn', mx', ex + sum_sizes rs) ∧
    Forall (λ r, mn' ≤ range_min r ∧ range_max r ≤ mx') rs ∧
    mn' ≤ mn ∧ mx ≤ mx' ∧
    (mn' = mn ∨ ∃ r, r ∈ rs ∧ mn' = range_min r) ∧
    (mx' = mx ∨ ∃ r, r ∈ rs ∧ mx' = range_max r).
Proof.
  intros Hall. revert mn mx ex.
  induction Hall as [|r rs Hr Hrs IH]; intros mn mx ex Hex Hsum; simpl.
  - exists mn, mx. rewrite Z.add_0_r. repeat split; auto; lia.
  - pose proof (sum_sizes_nonneg rs Hrs). simpl in Hsum.
    assert (to_size_t (ex + range_size r)
            = ex + (range_max r - range_min r)) as ->.
    { unfold range_size, to_size_t.
      rewrite (Z.mod_small (range_max r - range_min r)) by lia.
      apply Z.mod_small. lia. }
    destruct (IH (Z.min mn (range_min r)) (Z.max mx (range_max r))
                 (ex + (range_max r - range_min r)))
      as (mn' & mx' & -> & Hwin & Hmn & Hmx & Hmn' & Hmx'); [lia..|].
    exists mn', mx'. split; [f_equal; lia|].
    split; [apply Forall_cons; split; [lia | done]|].
    split; [lia|]. split; [lia|]. split.
    + destruct Hmn' as [->|(r' & ? & ->)].
      * destruct (Z.min_spec mn (range_min r)) as [[_ ->]|[_ ->]]; [by left|].
        right. exists r. split; [apply list_elem_of_here | done].
      * right. exists r'. split; [by apply list_elem_of_further | done].
    + destruct Hmx' as [->|(r' & ? & ->)].
      * destruct (Z.max_spec mx (range_max r)) as [[_ ->]|[_ ->]]; [|by left].
        right. exists r. split; [apply list_elem_of_here | done].
      * right. exists r'. split; [by apply list_elem_of_further | done].
Qed.
(** X9: the self-check of the benchmark passes.  For ranges that do not
    overlap and whose scan window lies within the capacity, filling a new
    bit-set with [set_all] and counting with [test_all] finds exactly as
    many positions as the ranges hold: the check returns true and prints
    nothing, neither a line of [test_all] on [std::cout] nor a
    [tries = ...] line of the bit-set, so that the output is as it was
    before; it leaves a bit-set that tests yes exactly on the ranges. *)
Theorem bench_check_passes {T : template_args} ranges h out :
  wf_args →
  Forall (λ r, 0 ≤ range_min r ≤ range_max r ∧ range_max r * 3 < 2 ^ 64 ∧
               range_max r * 3 / 2 ≤ Z.of_nat Capacity * 2 ^ BitsetWidth)
         ranges →
  disjoint_ranges ranges →
  ∃ m, bench_check ranges false h out = Some (true, m, []) ∧
       stdout m = out ∧
       ∀ x, valid_pos x →
            test x m = Some (if in_ranges ranges x then yes else no, m).
Proof.
  intros Hwf Hall Hdis.
  assert (Forall (λ r, 0 ≤ range_min r ∧ range_min r ≤ range_max r ∧
                       range_max r ≤ 2 ^ 64 - 1) ranges) as Hall64
    by (apply (Forall_impl _ _ _ Hall); simpl; intros; lia).
  assert (Forall (λ r, range_min r ≤ range_max r) ranges) as Hle
    by (apply (Forall_impl _ _ _ Hall); simpl; intros; lia).
  destruct (set_all_spec Hwf ranges (init h out) (λ _, false))
    as (m & Hset & Hinv & Hout & Hbits);
    [apply inv_init | apply bits_are_init
    | apply (Forall_impl _ _ _ Hall); intros r ([? ?] & ? & ?);
      assert (range_max r ≤ range_max r * 3 / 2)
        by (apply Z.div_le_lower_bound; lia); lia |].
  simpl in Hbits. exists m. split; [|split; [done|]].
  - unfold bench_check. rewrite Hset. simpl. unfold test_all, scan_bounds.
    destruct (scan_fold ranges (to_size_t (Z.lnot 0)) 0 0 Hle)
      as (mn & mx & -> & Hwin & Hmn & Hmx & Hmn' & Hmx'); [done| |].
    { destruct (sum_sizes_le ranges (2 ^ 64 - 1) Hdis Hall64) as [?| ->];
        [lia | done]. }
    assert (0 ≤ mx * 3 < 2 ^ 64 ∧
            mx * 3 / 2 ≤ Z.of_nat Capacity * 2 ^ BitsetWidth) as [Hmx3 Hcap].
    { destruct Hmx' as [->|(r & Hr & ->)].
      - pose proof (BucketBits_pos Hwf). change (0 * 3) with 0.
        rewrite Zdiv_0_l. split; [lia|]. apply Z.mul_nonneg_nonneg; lia.
      - rewrite Forall_forall in Hall.
        destruct (Hall r Hr) as (? & ? & ?). lia. }
    rewrite (Z.add_0_l (sum_sizes ranges)).
    replace (to_size_t (mx * 3)) with (mx * 3)
      by (symmetry; apply Z.mod_small; lia).
    assert (0 ≤ to_size_t (mn * 2) / 3) as Hlo.
    { apply Z.div_pos; [|lia]. apply Z.mod_pos_bound. lia. }
    rewrite (getter_range Hwf m (in_ranges ranges)); [simpl|done|done|done|done|].
    2: { apply Z.div_lt_upper_bound; lia. }
    assert (count_from (in_ranges ranges) (to_size_t (mn * 2) / 3)
              (Z.to_nat (mx * 3 / 2 - to_size_t (mn * 2) / 3))
            = sum_sizes ranges) as ->; [|by rewrite Z.eqb_refl].
    destruct ranges as [|r0 rs].
    { destruct Hmx' as [->|(r & Hr & _)]; [|by apply not_elem_of_nil in Hr].
      change (0 * 3) with 0. rewrite Zdiv_0_l.
      by replace (Z.to_nat (0 - _)) with 0%nat by lia. }
    assert (0 ≤ mn ∧ mn * 2 < 2 ^ 64) as [Hmn0 Hmn2].
    { rewrite Forall_forall in Hall.
      assert (∃ r, r ∈ r0 :: rs ∧ mn ≤ range_min r) as (r & Hr & Hrmn).
      { exists r0. split; [apply list_elem_of_here|].
        by apply Forall_cons in Hwin as [[? _] _]. }
      destruct Hmn' as [->|(r' & Hr' & ->)].
      - destruct (Hall r Hr) as (? & ? & _).
        change (to_size_t (Z.lnot 0)) with (2 ^ 64 - 1) in Hrmn. lia.
      - destruct (Hall r' Hr') as (? & ? & _).
        lia. }
    replace (to_size_t (mn * 2)) with (mn * 2)
      by (symmetry; apply Z.mod_small; lia).
    apply count_in_ranges; [done|].
    rewrite Forall_forall in Hall, Hwin |- *. intros r Hr.
    destruct (Hall r Hr) as (? & ? & ?), (Hwin r Hr) as [? ?].
    pose proof (Z.mul_div_le (mn * 2) 3).
    assert (mx ≤ mx * 3 / 2) by (apply Z.div_le_lower_bound; lia).
    assert (mn * 2 / 3 ≤ mn) by (apply Z.div_le_upper_bound; lia).
    lia.
  - intros x Hx. by rewrite (test_spec Hwf), (Hbits x Hx).
Qed.
Lemma bench_args_wf : wf_args (T := bench_args).
Proof.
  unfold wf_args. simpl.
  split; [lia|]. split; [by right; right|]. split; [by vm_compute|].
  split; lia.
Defined.

Lemma bench_check_passes_witness :
  ∃ m, bench_check (T := bench_args) bench_ranges false [] []
       = Some (true, m, []) ∧
       stdout m = [] ∧
       ∀ x, valid_pos (T := bench_args) x →
            test (T := bench_args) x m
            = Some (if in_ranges bench_ranges x then yes else no, m).
Proof.
  apply (bench_check_passes (T := bench_args) bench_ranges [] []).
  - apply bench_args_wf.
  - repeat constructor; simpl; try lia; by vm_compute.
  - simpl. repeat constructor; simpl; lia.
Defined.

(** * src/lockfree.h: rounding up to a power of two *)

Lemma smeared_self x : smeared 1 x x.
Proof.
  intros i Hi. split.
  - intros Hx. exists 0. split; [lia|]. by rewrite Z.add_0_r.
  - intros (j & Hj & Hx). by replace (i + j) with i in Hx by lia.
Qed.

Lemma or_equal_range w x u :
  0 ≤ w → 0 ≤ x < 2 ^ w → 0 ≤ u →
  0 ≤ or_equal w x u < 2 ^ w ∧ or_equal w x u = Z.lor x (Z.shiftr x u).
Proof.
  intros Hw Hx Hu.
  assert (0 < 2 ^ w) by (apply Z.pow_pos_nonneg; lia).
  assert (or_equal w x u = Z.lor x (Z.shiftr x u)) as Heq.
  { unfold or_equal. apply Z.bits_inj'. intros i Hi.
    destruct (Z.lt_ge_cases i w).
    - by rewrite Z.mod_pow2_bits_low.
    - rewrite Z.mod_pow2_bits_high, Z.lor_spec, Z.shiftr_spec by lia.
      rewrite <- (Z.mod_small x (2 ^ w)) by done.
      by rewrite !Z.mod_pow2_bits_high by lia. }
  split; [|done]. unfold or_equal. by apply Z.mod_pos_bound.
Qed.

(** one step doubles the number of bits smeared *)
Lemma or_equal_smeared w n x y :
  0 ≤ w → 0 ≤ y < 2 ^ w → 0 < n → smeared n x y →
  smeared (2 * n) x (or_equal w y n).
Proof.
  intros Hw Hy Hn Hsm i Hi.
  destruct (or_equal_range w y n) as [_ ->]; [lia..|].
  rewrite Z.lor_spec, Z.shiftr_spec, orb_true_iff by lia.
  rewrite (Hsm i), (Hsm (i + n)) by lia. split.
  - intros [(j & Hj & Hx)|(j & Hj & Hx)].
    + exists j. split; [lia | done].
    + exists (n + j). split; [lia|]. by rewrite Z.add_assoc.
  - intros (j & Hj & Hx). destruct (Z.lt_ge_cases j n).
    + left. exists j. split; [lia | done].
    + right. exists (j - n). split; [lia|].
      by replace (i + n + (j - n)) with (i + j) by lia.
Qed.

Lemma or_equal_all_smeared w k n x y :
  0 ≤ w → 0 ≤ y < 2 ^ w → 0 < n → smeared n x y →
  0 ≤ or_equal_all w y (doubling n k) < 2 ^ w ∧
  smeared (2 ^ Z.of_nat k * n) x (or_equal_all w y (doubling n k)).
Proof.
  intros Hw. revert n y. induction k as [|k IH]; intros n y Hy Hn Hsm.
  - simpl. split; [done|]. by rewrite Z.mul_1_l.
  - cbn [doubling or_equal_all].
    destruct (or_equal_range w y n) as [Hr _]; [lia..|].
    destruct (IH (2 * n) (or_equal w y n)) as [? Hsm'];
      [done | lia | by apply or_equal_smeared |].
    split; [done|].
    replace (2 ^ Z.of_nat (S k) * n) with (2 ^ Z.of_nat k * (2 * n)); [done|].
    rewrite Nat2Z.inj_succ, Z.pow_succ_r by lia. lia.
Qed.

(** smearing over the whole width sets every bit up to the highest one *)
Lemma smeared_full w x y :
  0 ≤ w → 0 < x < 2 ^ w → 0 ≤ y → smeared w x y →
  y = 2 ^ (Z.log2 x + 1) - 1.
Proof.
  intros Hw Hx Hy Hsm.
  pose proof (Z.log2_nonneg x) as HL.
  assert (Z.log2 x < w) by (apply Z.log2_lt_pow2; lia).
  replace (2 ^ (Z.log2 x + 1) - 1) with (Z.ones (Z.log2 x + 1))
    by (rewrite Z.ones_equiv; lia).
  apply Z.bits_inj'. intros i Hi. apply eq_true_iff_eq.
  rewrite (Hsm i Hi). split.
  - intros (j & Hj & Hbit). apply Z.ones_spec_low.
    destruct (Z.lt_ge_cases (Z.log2 x) (i + j)) as [Hgt|]; [|lia].
    by rewrite Z.bits_above_log2 in Hbit by lia.
  - intros Hbit. destruct (Z.lt_ge_cases i (Z.log2 x + 1)) as [|Hge].
    + exists (Z.log2 x - i). split; [lia|].
      replace (i + (Z.log2 x - i)) with (Z.log2 x) by lia.
      apply Z.bit_log2. lia.
    + by rewrite Z.ones_spec_high in Hbit by lia.
Qed.

(** the two instances: what the chain of shifts computes *)
Lemma or_equal_all_u32 x :
  0 < x < 2 ^ 32 →
  or_equal_all 32 x [1; 2; 4; 8; 16] = 2 ^ (Z.log2 x + 1) - 1.
Proof.
  intros Hx.
  destruct (or_equal_all_smeared 32 5 1 x x) as [Hr Hsm];
    [lia | lia | lia | apply smeared_self |].
  apply (smeared_full 32); [lia | done | apply Hr | apply Hsm].
Qed.

Lemma or_equal_all_u64 x :
  0 < x < 2 ^ 64 →
  or_equal_all 64 x [1; 2; 4; 8; 16; 32] = 2 ^ (Z.log2 x + 1) - 1.
Proof.
  intros Hx.
  destruct (or_equal_all_smeared 64 6 1 x x) as [Hr Hsm];
    [lia | lia | lia | apply smeared_self |].
  apply (smeared_full 64); [lia | done | apply Hr | apply Hsm].
Qed.

Lemma pow2_log2_up a :
  1 ≤ a →
  2 ^ Z.log2_up a = (if a =? 1 then 1 else 2 ^ (Z.log2 (a - 1) + 1)) ∧
  a ≤ 2 ^ Z.log2_up a < 2 * a.
Proof.
  intros Ha. destruct (Z.eqb_spec a 1) as [->|Hne].
  - by split.
  - assert (1 < a) as Hlt by lia.
    pose proof (Z.log2_nonneg (a - 1)) as HL.
    assert (Z.log2_up a = Z.log2 (a - 1) + 1) as Heq
      by (by rewrite (Z.log2_up_eqn a Hlt), Z.sub_1_r).
    pose proof (Z.log2_up_spec a Hlt) as [Hlo Hhi].
    rewrite Heq in *. split; [done|].
    replace (Z.pred (Z.log2 (a - 1) + 1)) with (Z.log2 (a - 1)) in Hlo by lia.
    rewrite Z.pow_add_r in Hhi |- * by lia. change (2 ^ 1) with 2 in *. lia.
Qed.
(** X10: for [1 <= a <= 2^31] the 32-bit [round_up_to_power_of_2] returns
    the least power of two that is at least [a]: it is [2^k] with
    [k = log2_up a], and [a <= 2^k < 2a]. *)
Theorem round_up_u32_least_power a :
  1 ≤ a ≤ 2 ^ 31 →
  round_up_to_power_of_2_u32 a = 2 ^ Z.log2_up a ∧
  a ≤ round_up_to_power_of_2_u32 a < 2 * a.
Proof.
  intros Ha. destruct (pow2_log2_up a) as [Hpow Hbounds]; [lia|].
  assert (round_up_to_power_of_2_u32 a = 2 ^ Z.log2_up a) as ->; [|done].
  rewrite Hpow. unfold round_up_to_power_of_2_u32.
  rewrite (Z.mod_small (a - 1)) by lia.
  destruct (Z.eqb_spec a 1) as [->|Hne]; [done|].
  rewrite or_equal_all_u32 by lia.
  rewrite <- Hpow.
  replace (2 ^ Z.log2_up a - 1 + 1) with (2 ^ Z.log2_up a) by lia.
  apply Z.mod_small. lia.
Qed.

(** X11: the 32-bit [round_up_to_power_of_2] returns 0 when no power of two
    fits: for [a = 0], where [a - 1] wraps around, and for [a > 2^31]. *)
Theorem round_up_u32_overflow a :
  a = 0 ∨ 2 ^ 31 < a < 2 ^ 32 →
  round_up_to_power_of_2_u32 a = 0.
Proof.
  intros Ha. unfold round_up_to_power_of_2_u32.
  assert (2 ^ 31 ≤ (a - 1) mod 2 ^ 32 < 2 ^ 32) as Hx.
  { destruct Ha as [->|Ha]; [by vm_compute|]. rewrite Z.mod_small; lia. }
  rewrite or_equal_all_u32 by lia.
  assert (Z.log2 ((a - 1) mod 2 ^ 32) = 31) as ->; [|done].
  apply Z.log2_unique; lia.
Qed.

(** X12: for [1 <= a <= 2^63] the 64-bit [round_up_to_power_of_2] returns
    the least power of two that is at least [a]. *)
Theorem round_up_u64_least_power a :
  1 ≤ a ≤ 2 ^ 63 →
  round_up_to_power_of_2_u64 a = 2 ^ Z.log2_up a ∧
  a ≤ round_up_to_power_of_2_u64 a < 2 * a.
Proof.
  intros Ha. destruct (pow2_log2_up a) as [Hpow Hbounds]; [lia|].
  assert (round_up_to_power_of_2_u64 a = 2 ^ Z.log2_up a) as ->; [|done].
  rewrite Hpow. unfold round_up_to_power_of_2_u64.
  rewrite (Z.mod_small (a - 1)) by lia.
  destruct (Z.eqb_spec a 1) as [->|Hne]; [done|].
  rewrite or_equal_all_u64 by lia.
  rewrite <- Hpow.
  replace (2 ^ Z.log2_up a - 1 + 1) with (2 ^ Z.log2_up a) by lia.
  apply Z.mod_small. lia.
Qed.

(** X13: the 64-bit [round_up_to_power_of_2] returns 0 for [a = 0] and for
    [a > 2^63]. *)
Theorem round_up_u64_overflow a :
  a = 0 ∨ 2 ^ 63 < a < 2 ^ 64 →
  round_up_to_power_of_2_u64 a = 0.
Proof.
  intros Ha. unfold round_up_to_power_of_2_u64.
  assert (2 ^ 63 ≤ (a - 1) mod 2 ^ 64 < 2 ^ 64) as Hx.
  { destruct Ha as [->|Ha]; [by vm_compute|]. rewrite Z.mod_small; lia. }
  rewrite or_equal_all_u64 by lia.
  assert (Z.log2 ((a - 1) mod 2 ^ 64) = 63) as ->; [|done].
  apply Z.log2_unique; lia.
Qed.
Lemma round_up_u32_least_power_witness :
  round_up_to_power_of_2_u32 1000 = 2 ^ Z.log2_up 1000 ∧
  1000 ≤ round_up_to_power_of_2_u32 1000 < 2 * 1000.
Proof. apply (round_up_u32_least_power 1000). lia. Defined.

Lemma round_up_u32_overflow_witness :
  round_up_to_power_of_2_u32 3000000000 = 0.
Proof. apply (round_up_u32_overflow 3000000000). right. lia. Defined.

Lemma round_up_u64_least_power_witness :
  round_up_to_power_of_2_u64 5000000000 = 2 ^ Z.log2_up 5000000000 ∧
  5000000000 ≤ round_up_to_power_of_2_u64 5000000000 < 2 * 5000000000.
Proof. apply (round_up_u64_least_power 5000000000). lia. Defined.

Lemma round_up_u64_overflow_witness :
  round_up_to_power_of_2_u64 (2 ^ 63 + 1) = 0.
Proof. apply (round_up_u64_overflow (2 ^ 63 + 1)). right. lia. Defined.

(** * src/tabulate.cc: TrueColor *)

Lemma BYTEn_range v n : 0 ≤ BYTEn v n ≤ 255.
Proof.
  unfold BYTEn.
  assert (Z.land (Z.shiftr v (n * 8)) 255 = Z.shiftr v (n * 8) mod 2 ^ 8) as ->
    by (change 255 with (Z.ones 8); apply Z.land_ones; lia).
  pose proof (Z.mod_pos_bound (Z.shiftr v (n * 8)) (2 ^ 8) ltac:(lia)). lia.
Qed.

Lemma byte_testbit x i : 0 ≤ x ≤ 255 → 8 ≤ i → Z.testbit x i = false.
Proof.
  intros Hx Hi. rewrite <- (Z.mod_small x (2 ^ 8)) by lia.
  apply Z.mod_pow2_bits_high. lia.
Qed.

Lemma testbit_255 i : 0 ≤ i → Z.testbit 255 i = (i <? 8).
Proof.
  intros Hi. change 255 with (Z.ones 8).
  destruct (Z.ltb_spec i 8).
  - apply Z.ones_spec_low. lia.
  - apply Z.ones_spec_high. lia.
Qed.

(** the three bytes of a packed colour are its channels *)
Lemma BYTEn_pack_rgb r g b :
  0 ≤ r ≤ 255 → 0 ≤ g ≤ 255 → 0 ≤ b ≤ 255 →
  BYTEn (pack_rgb r g b) 2 = r ∧ BYTEn (pack_rgb r g b) 1 = g ∧
  BYTEn (pack_rgb r g b) 0 = b.
Proof.
  intros Hr Hg Hb. unfold BYTEn, pack_rgb.
  repeat split; apply Z.bits_inj'; intros i Hi;
    rewrite Z.land_spec, Z.shiftr_spec, !Z.lor_spec, !Z.shiftl_spec,
      testbit_255 by lia;
    (destruct (Z.ltb_spec i 8);
     [rewrite andb_true_r | rewrite andb_false_r; symmetry; by apply byte_testbit]).
  - replace (i + 2 * 8 - 16) with i by lia.
    by rewrite (byte_testbit g), (byte_testbit b), !orb_false_r by lia.
  - replace (i + 1 * 8 - 8) with i by lia.
    rewrite (Z.testbit_neg_r r), (byte_testbit b) by lia.
    by rewrite orb_false_r.
  - replace (i + 0 * 8) with i by lia.
    by rewrite (Z.testbit_neg_r r), (Z.testbit_neg_r g) by lia.
Qed.

Lemma pack_rgb_range r g b :
  0 ≤ r ≤ 255 → 0 ≤ g ≤ 255 → 0 ≤ b ≤ 255 → 0 ≤ pack_rgb r g b < 2 ^ 24.
Proof.
  intros Hr Hg Hb.
  assert (0 ≤ pack_rgb r g b) as Hnn.
  { unfold pack_rgb. rewrite !Z.lor_nonneg, !Z.shiftl_nonneg. lia. }
  split; [done|].
  rewrite <- (Z.mod_small (pack_rgb r g b) (2 ^ 24)) at 1.
  - apply Z.mod_pos_bound. lia.
  - split; [done|]. apply Z.log2_lt_cancel.
    destruct (Z.eq_dec (pack_rgb r g b) 0) as [->|Hne]; [done|].
    rewrite Z.log2_pow2 by lia.
    destruct (Z.lt_ge_cases (Z.log2 (pack_rgb r g b)) 24) as [|Hge]; [done|].
    pose proof (Z.bit_log2 (pack_rgb r g b) ltac:(lia)) as Hbit.
    unfold pack_rgb in Hbit at 1.
    rewrite !Z.lor_spec, !Z.shiftl_spec in Hbit by lia.
    by rewrite !byte_testbit in Hbit by lia.
Qed.

Lemma avg_range x y :
  0 ≤ x ≤ 255 → 0 ≤ y ≤ 255 →
  (x + y + 1) ÷ 2 = (x + y + 1) / 2 ∧
  0 ≤ (x + y + 1) / 2 ≤ 255 ∧ Z.min x y ≤ (x + y + 1) / 2 ≤ Z.max x y.
Proof.
  intros Hx Hy. split; [apply Z.quot_div_nonneg; lia|].
  pose proof (Z.div_mod (x + y + 1) 2 ltac:(lia)).
  pose proof (Z.mod_pos_bound (x + y + 1) 2 ltac:(lia)). lia.
Qed.
(** X14: [RGB()] decodes what the packing of three channels encodes, and
    the packing of the channels of a colour code below 2^24 is the code
    again; the channels of any colour lie between 0 and 255. *)
Theorem TrueColor_RGB_round_trip :
  (∀ r g b, 0 ≤ r ≤ 255 → 0 ≤ g ≤ 255 → 0 ≤ b ≤ 255 →
            TrueColor_RGB (TrueColor_of_hex (pack_rgb r g b)) = (r, g, b)) ∧
  (∀ h, 0 ≤ h < 2 ^ 24 →
        let rgb := TrueColor_RGB (TrueColor_of_hex h) in
        pack_rgb rgb.1.1 rgb.1.2 rgb.2 = h) ∧
  (∀ t, let rgb := TrueColor_RGB t in
        0 ≤ rgb.1.1 ≤ 255 ∧ 0 ≤ rgb.1.2 ≤ 255 ∧ 0 ≤ rgb.2 ≤ 255).
Proof.
  split; [|split].
  - intros r g b Hr Hg Hb. unfold TrueColor_RGB. simpl.
    destruct (BYTEn_pack_rgb r g b Hr Hg Hb) as (-> & -> & ->). done.
  - intros h Hh. simpl. unfold pack_rgb, BYTEn.
    apply Z.bits_inj'. intros i Hi.
    rewrite !Z.lor_spec, !Z.shiftl_spec by lia.
    destruct (Z.lt_ge_cases i 8); [|destruct (Z.lt_ge_cases i 16)].
    + rewrite !(Z.testbit_neg_r _ (i - _)) by lia. simpl.
      rewrite Z.land_spec, Z.shiftr_spec, testbit_255 by lia.
      replace (i + 0 * 8) with i by lia.
      destruct (Z.ltb_spec i 8); [apply andb_true_r | lia].
    + rewrite (Z.testbit_neg_r _ (i - 16)) by lia. simpl.
      rewrite !Z.land_spec, !Z.shiftr_spec, !testbit_255 by lia.
      replace (i - 8 + 1 * 8) with i by lia.
      destruct (Z.ltb_spec (i - 8) 8), (Z.ltb_spec i 8); try lia.
      by rewrite andb_true_r, andb_false_r, orb_false_r.
    + rewrite !Z.land_spec, !Z.shiftr_spec, !testbit_255 by lia.
      replace (i - 16 + 2 * 8) with i by lia.
      destruct (Z.ltb_spec (i - 16) 8), (Z.ltb_spec (i - 8) 8),
        (Z.ltb_spec i 8); try lia.
      * by rewrite andb_true_r, !andb_false_r, !orb_false_r.
      * rewrite !andb_false_r. simpl.
        rewrite <- (Z.mod_small h (2 ^ 24)) by done.
        symmetry. apply Z.mod_pow2_bits_high. lia.
  - intros t. simpl. repeat split; apply BYTEn_range.
Qed.

(** X15: [merge] averages channel by channel, rounding up: each channel of
    the result is [(x + y + 1) / 2] and lies between the two channels it
    comes from.  [merge] is commutative, and merging a colour with itself
    keeps its channels. *)
Theorem TrueColor_merge_average a b :
  let ra := TrueColor_RGB a in
  let rb := TrueColor_RGB b in
  let rm := TrueColor_RGB (TrueColor_merge a b) in
  rm = ((ra.1.1 + rb.1.1 + 1) / 2, (ra.1.2 + rb.1.2 + 1) / 2,
        (ra.2 + rb.2 + 1) / 2) ∧
  (Z.min ra.1.1 rb.1.1 ≤ rm.1.1 ≤ Z.max ra.1.1 rb.1.1 ∧
   Z.min ra.1.2 rb.1.2 ≤ rm.1.2 ≤ Z.max ra.1.2 rb.1.2 ∧
   Z.min ra.2 rb.2 ≤ rm.2 ≤ Z.max ra.2 rb.2) ∧
  TrueColor_merge a b = TrueColor_merge b a ∧
  TrueColor_RGB (TrueColor_merge a a) = TrueColor_RGB a.
Proof.
  assert (∀ a b,
            TrueColor_RGB (TrueColor_merge a b)
            = ((BYTEn (hex a) 2 + BYTEn (hex b) 2 + 1) / 2,
               (BYTEn (hex a) 1 + BYTEn (hex b) 1 + 1) / 2,
               (BYTEn (hex a) 0 + BYTEn (hex b) 0 + 1) / 2)) as Hmerge.
  { intros a' b'. unfold TrueColor_RGB, TrueColor_merge. simpl.
    destruct (avg_range (BYTEn (hex a') 2) (BYTEn (hex b') 2))
      as (-> & ? & _); [apply BYTEn_range..|].
    destruct (avg_range (BYTEn (hex a') 1) (BYTEn (hex b') 1))
      as (-> & ? & _); [apply BYTEn_range..|].
    destruct (avg_range (BYTEn (hex a') 0) (BYTEn (hex b') 0))
      as (-> & ? & _); [apply BYTEn_range..|].
    by destruct (BYTEn_pack_rgb _ _ _ H H0 H1) as (-> & -> & ->). }
  cbv zeta. rewrite !Hmerge. unfold TrueColor_RGB. cbn [fst snd].
  pose proof (BYTEn_range (hex a) 2). pose proof (BYTEn_range (hex a) 1).
  pose proof (BYTEn_range (hex a) 0). pose proof (BYTEn_range (hex b) 2).
  pose proof (BYTEn_range (hex b) 1). pose proof (BYTEn_range (hex b) 0).
  split; [done|]. split; [|split].
  - destruct (avg_range (BYTEn (hex a) 2) (BYTEn (hex b) 2)) as (_ & _ & ?);
      [done..|].
    destruct (avg_range (BYTEn (hex a) 1) (BYTEn (hex b) 1)) as (_ & _ & ?);
      [done..|].
    destruct (avg_range (BYTEn (hex a) 0) (BYTEn (hex b) 0)) as (_ & _ & ?);
      [done..|].
    done.
  - unfold TrueColor_merge. by rewrite !(Z.add_comm (BYTEn (hex a) _)).
  - repeat f_equal; symmetry; apply Z.div_unique with 1; lia.
Qed.

(** X16: the result of [merge] is a colour code between 0 and 0xFFFFFF and
    is never the default colour: [none()] is false for it, also when both
    arguments are the default colour. *)
Theorem TrueColor_merge_not_none a b :
  0 ≤ hex (TrueColor_merge a b) < 2 ^ 24 ∧
  TrueColor_none (TrueColor_merge a b) = false.
Proof.
  assert (0 ≤ hex (TrueColor_merge a b) < 2 ^ 24) as Hrange.
  { unfold TrueColor_merge. simpl.
    destruct (avg_range (BYTEn (hex a) 2) (BYTEn (hex b) 2))
      as (-> & ? & _); [apply BYTEn_range..|].
    destruct (avg_range (BYTEn (hex a) 1) (BYTEn (hex b) 1))
      as (-> & ? & _); [apply BYTEn_range..|].
    destruct (avg_range (BYTEn (hex a) 0) (BYTEn (hex b) 0))
      as (-> & ? & _); [apply BYTEn_range..|].
    by apply pack_rgb_range. }
  split; [done|]. unfold TrueColor_none. apply Z.eqb_neq.
  change TrueColor_DEFAULT with (-16777216). lia.
Qed.
Lemma TrueColor_RGB_round_trip_witness :
  TrueColor_RGB (TrueColor_of_hex (pack_rgb 18 52 86)) = (18, 52, 86) ∧
  pack_rgb 128 128 128 = 8421504.
Proof.
  destruct TrueColor_RGB_round_trip as (Hdecode & Hencode & _). split.
  - apply (Hdecode 18 52 86); lia.
  - apply (Hencode 8421504). lia.
Defined.

(** * src/tabulate.cc: explode_string *)

Lemma find_at_spec s sep i j :
  find_at s sep i = Some j →
  (i ≤ j)%nat ∧ (j - i + length sep ≤ length s)%nat.
Proof.
  revert i. induction s as [|c s IH]; intros i; simpl.
  - case_bool_decide as Hp; [|done]. intros [= <-].
    apply prefix_length in Hp. simpl in *. lia.
  - case_bool_decide as Hp.
    + intros [= <-]. apply prefix_length in Hp. simpl in *. lia.
    + intros [? ?]%IH. lia.
Qed.

Lemma string_find_spec input sep pos j :
  string_find input sep pos = Some j →
  (pos ≤ j)%nat ∧ (j + length sep ≤ length input)%nat.
Proof.
  unfold string_find. case_bool_decide as Hpos; [|done].
  intros [? Hlen]%find_at_spec. rewrite length_drop in Hlen. lia.
Qed.

Lemma string_find_empty input pos :
  (pos ≤ length input)%nat → string_find input [] pos = Some pos.
Proof.
  intros Hpos. unfold string_find. rewrite bool_decide_eq_true_2 by done.
  destruct (drop pos input); simpl;
    by rewrite ?bool_decide_eq_true_2 by apply prefix_nil.
Qed.

Lemma string_find_beyond input sep pos :
  (length input < pos)%nat → string_find input sep pos = None.
Proof.
  intros Hpos. unfold string_find. by rewrite bool_decide_eq_false_2 by lia.
Qed.

Lemma foldr_min_elem i indices :
  foldr Nat.min i indices ∈ i :: indices ∧
  Forall (λ j, foldr Nat.min i indices ≤ j)%nat (i :: indices).
Proof.
  induction indices as [|k indices [IHin IHle]]; simpl.
  - split; [apply list_elem_of_here | by repeat constructor].
  - apply Forall_cons in IHle as [Hi Hrest]. split.
    + destruct (Nat.min_spec k (foldr Nat.min i indices)) as [[_ ->]|[_ ->]].
      * apply list_elem_of_further, list_elem_of_here.
      * apply elem_of_cons in IHin as [->|?];
          [apply list_elem_of_here | by do 2 apply list_elem_of_further].
    + repeat apply Forall_cons_2; [lia | lia |].
      eapply Forall_impl; [done|]. simpl. intros; lia.
Qed.

(** [first_of] returns an index found for one of the separators, the least
    of those found *)
Lemma first_of_spec input start separators index :
  first_of input start separators = Some index →
  (∃ sep, sep ∈ separators ∧ string_find input sep start = Some index) ∧
  (∀ sep j, sep ∈ separators → string_find input sep start = Some j →
            index ≤ j)%nat.
Proof.
  unfold first_of.
  destruct (omap _ separators) as [|i indices] eqn:Hom; [done|].
  intros [= <-]. destruct (foldr_min_elem i indices) as [Hin Hle]. split.
  - rewrite <- Hom in Hin. apply list_elem_of_omap in Hin as (sep & ? & ?).
    eauto.
  - intros sep j Hsep Hj. rewrite Forall_forall in Hle. apply Hle.
    rewrite <- Hom. apply list_elem_of_omap. eauto.
Qed.

Lemma first_of_None input start separators :
  (∀ sep, sep ∈ separators → string_find input sep start = None) →
  first_of input start separators = None.
Proof.
  intros Hnone. unfold first_of.
  destruct (omap _ separators) as [|i indices] eqn:Hom; [done|].
  assert (i ∈ omap (λ c, string_find input c start) separators) as Hi
    by (rewrite Hom; apply list_elem_of_here).
  apply list_elem_of_omap in Hi as (sep & Hsep & Hfind).
  by rewrite Hnone in Hfind.
Qed.

Lemma explode_loop_concat fuel input separators start segments :
  Forall (λ sep, sep ≠ []) separators →
  (start ≤ length input)%nat → (length input - start < fuel)%nat →
  ∃ segments',
    explode_loop fuel input separators start segments = returns segments' ∧
    concat segments' = concat segments ++ drop start input.
Proof.
  intros Hseps. revert start segments.
  induction fuel as [|fuel IH]; intros start segments Hstart Hfuel; [lia|].
  simpl. destruct (first_of input start separators) as [index|] eqn:Hfirst.
  - apply first_of_spec in Hfirst as [(sep & Hsep & Hfind) _].
    apply string_find_spec in Hfind as [Hle Hlen].
    assert (sep ≠ []) as Hne by (rewrite Forall_forall in Hseps; auto).
    assert (0 < length sep)%nat by (destruct sep; simpl; [done | lia]).
    unfold substr. rewrite !bool_decide_eq_true_2 by lia.
    destruct (lookup_lt_is_Some_2 input index) as [c Hc]; [lia|].
    assert (first_char (take 1 (drop index input)) = c) as ->.
    { rewrite <- (take_drop_middle input index c Hc) at 1.
      rewrite drop_app_length'; [done|]. rewrite length_take. lia. }
    assert (∃ word, take (index - start) (drop start input) = word ∧
                    drop start input = word ++ [c] ++ drop (index + 1) input)
      as (word & -> & Hsplit).
    { eexists. split; [done|].
      rewrite <- (take_drop_middle (drop start input) (index - start) c) at 1.
      - rewrite drop_drop. do 3 f_equal. lia.
      - rewrite lookup_drop, <- Hc. f_equal. lia. }
    destruct (IH (index + 1)%nat
                (if isspace c then segments ++ [word; [c]]
                 else segments ++ [word ++ [c]]))
      as (segments' & -> & Hconcat); [lia | lia |].
    exists segments'. split; [done|]. rewrite Hconcat, Hsplit.
    destruct (isspace c); rewrite concat_app; simpl;
      by rewrite ?app_nil_r, <- ?app_assoc.
  - unfold substr_from. rewrite bool_decide_eq_true_2 by done.
    eexists. split; [done|]. rewrite concat_app. simpl. by rewrite app_nil_r.
Qed.

Lemma explode_loop_throws fuel input separators start segments :
  [] ∈ separators →
  (start ≤ length input + 1)%nat → (length input + 1 - start < fuel)%nat →
  explode_loop fuel input separators start segments = throws.
Proof.
  intros Hempty. revert start segments.
  induction fuel as [|fuel IH]; intros start segments Hstart Hfuel; [lia|].
  simpl. destruct (decide (start ≤ length input)%nat) as [Hle|Hgt].
  - destruct (first_of input start separators) as [index|] eqn:Hfirst.
    + apply first_of_spec in Hfirst as [(sep & Hsep & Hfind) Hmin].
      apply string_find_spec in Hfind as [Hge _].
      pose proof (Hmin [] start Hempty (string_find_empty input start Hle)).
      assert (index = start) as -> by lia.
      unfold substr. rewrite !bool_decide_eq_true_2 by lia.
      apply IH; lia.
    + exfalso. unfold first_of in Hfirst.
      destruct (omap _ separators) as [|i indices] eqn:Hom; [|done].
      assert (start ∈ omap (λ c, string_find input c start) separators) as Hin.
      { apply list_elem_of_omap. exists []. split; [done|].
        by apply string_find_empty. }
      rewrite Hom in Hin. by apply not_elem_of_nil in Hin.
  - rewrite first_of_None by (intros; apply string_find_beyond; lia).
    unfold substr_from. by rewrite bool_decide_eq_false_2 by lia.
Qed.
(** X17: explode_string loses no character.  With separators that are not
    empty it returns, and the concatenation of the segments is the input. *)
Theorem explode_string_concat input separators :
  Forall (λ sep, sep ≠ []) separators →
  ∃ segments,
    explode_string input separators = returns segments ∧
    concat segments = input.
Proof.
  intros Hseps. unfold explode_string.
  destruct (explode_loop_concat (length input + 2) input separators 0 [])
    as (segments & ? & Hconcat); [done | lia | lia |].
  exists segments. split; [done|]. by rewrite Hconcat.
Qed.

(** X18: with an empty string among the separators, explode_string throws
    std::out_of_range: the empty separator is found at every position, the
    loop steps one past the end of the input, and [substr] refuses the
    position. *)
Theorem explode_string_empty_separator input separators :
  [] ∈ separators →
  explode_string input separators = throws.
Proof.
  intros Hempty. unfold explode_string.
  apply explode_loop_throws; [done | lia | lia].
Qed.
Lemma explode_string_concat_witness :
  ∃ segments,
    explode_string ["a"; "b"; " "; "c"; "-"; "d"]%char wrap_separators
    = returns segments ∧
    concat segments = ["a"; "b"; " "; "c"; "-"; "d"]%char.
Proof.
  apply (explode_string_concat ["a"; "b"; " "; "c"; "-"; "d"]%char
           wrap_separators).
  repeat constructor; discriminate.
Defined.

Lemma explode_string_empty_separator_witness :
  explode_string ["a"; "b"]%char [["-"%char]; []] = throws.
Proof.
  apply (explode_string_empty_separator ["a"; "b"]%char [["-"%char]; []]).
  apply list_elem_of_further, list_elem_of_here.
Defined.

(** * src/tabulate.cc: replace_all *)

Section replace.

Variables from to : list ascii.
Hypothesis Hfrom : from ≠ [].

Lemma from_length : (0 < length from)%nat.
Proof. destruct from; simpl; [done | lia]. Qed.

(** more steps than characters change nothing *)
Lemma replace_model_fuel n s :
  (length s ≤ n)%nat →
  replace_model n from to s = replace_model (length s) from to s.
Proof.
  revert n. induction s as [s IH] using (induction_ltof1 _ length).
  unfold ltof in IH. intros n Hn. pose proof from_length.
  destruct n as [|n], s as [|c s]; simpl in *; try done || lia.
  - case_bool_decide as Hp; [|done].
    apply prefix_length in Hp. simpl in Hp. lia.
  - case_bool_decide as Hp.
    + pose proof (prefix_length _ _ Hp) as Hlen. simpl in Hlen.
      assert (length (drop (length from) (c :: s)) < S (length s))%nat as Hd
        by (rewrite length_drop; simpl; lia).
      rewrite (IH _ Hd n), (IH _ Hd (length s)); [done | lia..].
    + by rewrite (IH s) by (simpl; lia).
Qed.

(** [find_at] against the scan: up to the index found the scan copies, at
    the index it replaces *)
Lemma find_at_model s i :
  match find_at s from i with
  | Some j =>
      (i ≤ j)%nat ∧ (j - i + length from ≤ length s)%nat ∧
      replace_model (length s) from to s
      = take (j - i) s ++ to
        ++ replace_model (length s - (j - i) - length from) from to
             (drop (j - i + length from) s)
  | None => replace_model (length s) from to s = s
  end.
Proof.
  revert i. induction s as [|c s IH]; intros i; simpl.
  - case_bool_decide as Hp; [|done].
    apply prefix_length in Hp. pose proof from_length. simpl in Hp. lia.
  - case_bool_decide as Hp.
    + pose proof (prefix_length _ _ Hp) as Hlen. simpl in Hlen.
      split; [lia|]. split; [lia|]. rewrite Nat.sub_diag. simpl.
      f_equal. pose proof from_length.
      rewrite (replace_model_fuel (length s)),
        (replace_model_fuel (S (length s) - length from));
        [done | rewrite length_drop; simpl; lia..].
    + specialize (IH (S i)). destruct (find_at s from (S i)) as [j|].
      * destruct IH as (Hij & Hlen & Hmodel). split; [lia|]. split; [lia|].
        replace (j - i)%nat with (S (j - S i)) by lia. simpl.
        f_equal. by rewrite Hmodel.
      * by rewrite IH.
Qed.

Lemma replace_loop_model fuel done rest :
  (length rest < fuel)%nat →
  replace_loop fuel (done ++ rest) from to (length done)
  = returns (done ++ replace_model (length rest) from to rest).
Proof.
  revert done rest. induction fuel as [|fuel IH]; intros done rest Hfuel; [lia|].
  simpl. unfold string_find.
  rewrite bool_decide_eq_true_2 by (rewrite length_app; lia).
  rewrite drop_app_length.
  pose proof (find_at_model rest (length done)) as Hfind.
  destruct (find_at rest from (length done)) as [j|].
  - destruct Hfind as (Hij & Hlen & ->).
    assert (∃ k, j = (length done + k)%nat ∧ (k + length from ≤ length rest)%nat)
      as (k & -> & Hk) by (exists (j - length done)%nat; lia).
    replace (length done + k - length done)%nat with k by lia.
    rewrite take_app_add, drop_app_ge by (rewrite ?length_app; lia).
    replace (length done + k + length from - length done)%nat
      with (k + length from)%nat by lia.
    pose proof from_length.
    rewrite (app_assoc (done ++ take k rest)).
    replace (length done + k + length to)%nat
      with (length ((done ++ take k rest) ++ to))
      by (rewrite !length_app, length_take; lia).
    rewrite IH by (rewrite length_drop; lia).
    rewrite <- !app_assoc. do 4 f_equal.
    rewrite length_drop. f_equal. lia.
  - by rewrite Hfind.
Qed.

End replace.


(** X19: for a non-empty [from], replace_all returns, and its result is
    the scan of the string from left to right that writes [to] where [from]
    starts and continues behind [from]: occurrences are replaced once,
    without overlap, and the text written is not searched again, also when
    [to] contains [from]. *)
Theorem replace_all_scan str from to :
  from ≠ [] →
  replace_all str from to = returns (replace_model (length str) from to str).
Proof.
  intros Hfrom. unfold replace_all.
  apply (replace_loop_model from to Hfrom (length str + 1) [] str). lia.
Qed.

Lemma replace_all_scan_witness :
  replace_all ["a"; "#"; "#"; "b"]%char ["#"]%char ["\"; "#"]%char
  = returns ["a"; "\"; "#"; "\"; "#"; "b"]%char.
Proof.
  apply (replace_all_scan ["a"; "#"; "#"; "b"]%char ["#"]%char ["\"; "#"]%char).
  discriminate.
Defined.

(** X20: for an empty [from] and an empty [to], the loop of replace_all
    does not end: the empty string is found at position 0, replacing it by
    the empty string leaves the string as it is and [curr] at 0, so every
    round starts from the same state and no number of rounds suffices. *)
Theorem replace_all_empty_from_to fuel str :
  replace_loop fuel str [] [] 0 = out_of_fuel.
Proof.
  induction fuel as [|fuel IH]; [done|].
  simpl. rewrite string_find_empty by lia. simpl. by rewrite drop_0.
Qed.

End lockfree.
